(** * Buffer chains of the c7a data layer and the Thrill UFS file base

    A shallow embedding of [c7a/data/buffer_chain.hpp] (BufferChainElement,
    BufferChain, OrderedBufferChain) and of [UfsFileBase::close] from
    [thrill/io/ufs_file_base.cpp], with the properties the specification
    states about them, and a model of the emitter, iterator, multiplexer and
    scatter protocol of the specification, run on the scatter tests of
    [tests/data/manager_channels_test.cpp].  Further parts cover the rest of [UfsFileBase], the
    buffered reader and the mock group of [c7a/net/net_group.cpp], the
    comparison helpers of the channel test, and the comparisons and packing
    functions of [examples/suffix_sorting/prefix_doubling.cpp].

    Conventions.  A [size_t] is a [Z] in [0, 2^64) and every [size_t]
    addition of the source is written with its wrap-around ([size_t_add]).
    The C++ [assert] of the element constructor is a failure ([None]) of the
    option monad, and that the assertion cannot fire is a theorem about the
    operations.  Mutexes only serialise the operations; the model is
    the sequential behaviour of one operation at a time. *)

From Stdlib Require Import ZArith Lia.
From Stdlib Require Import Strings.String Strings.Byte.
From stdpp Require Import base option list gmap sorting.

Local Open Scope Z_scope.

(** ** Machine integers *)

Definition SIZE_MODULUS : Z := 2 ^ 64.

Definition is_size_t (z : Z) : Prop := 0 <= z < SIZE_MODULUS.

(** [a + b] on two [size_t] operands. *)
Definition size_t_add (a b : Z) : Z := (a + b) mod SIZE_MODULUS.

(** Sum of a list of integers (the mathematical sum, no wrap-around). *)
Definition sum_list_Z (l : list Z) : Z := foldr Z.add 0 l.

Module Data.

(** ** Binary buffers

    Modelled from the spec: [BinaryBuffer] and [BinaryBufferBuilder]
    ([c7a/data/binary_buffer.hpp] is not part of the sources).  A buffer is
    an immutable byte region; a builder is a byte sink that counts the
    records serialised into it; detaching a builder leaves it empty. *)

Record BinaryBuffer := mkBinaryBuffer { bytes : list Byte.byte }.

Record BinaryBufferBuilder := mkBuilder {
  builder_bytes : list Byte.byte;
  builder_elements : Z
}.

(** [BinaryBuffer(nullptr, 0)] *)
Definition BinaryBuffer_null : BinaryBuffer := mkBinaryBuffer [].

(** [BinaryBuffer(b)]: the buffer that views the builder's storage. *)
Definition BinaryBuffer_of (b : BinaryBufferBuilder) : BinaryBuffer :=
  mkBinaryBuffer (builder_bytes b).

(** [b.elements()] *)
Definition elements (b : BinaryBufferBuilder) : Z := builder_elements b.

(** [b.Detach()] *)
Definition Detach (b : BinaryBufferBuilder) : BinaryBufferBuilder :=
  mkBuilder [] 0.

(** ** BufferChainElement *)

Record BufferChainElement := mkElement {
  buffer : BinaryBuffer;
  element_count : Z;
  offset_of_first : Z
}.

(** The constructor [BufferChainElement(b, element_count, offset = 0)].
    Its body is [assert(offset_of_first == 0)]: a non-zero offset aborts. *)
Definition BufferChainElement_new (b : BinaryBuffer) (count offset : Z)
  : option BufferChainElement :=
  if decide (offset = 0) then Some (mkElement b count offset) else None.

(** The default argument [offset = 0]. *)
Definition default_offset : Z := 0.

(** ** BufferChain

    [elements_] is the deque, front first.  [closed_] is the atomic flag.
    [notified_] counts the calls of [condition_variable_.notify_all()]; it is
    the only trace the condition variable leaves in a sequential model. *)

Record BufferChain := mkChain {
  elements_ : list BufferChainElement;
  closed_ : bool;
  notified_ : nat
}.

Definition push_back {A} (d : list A) (x : A) : list A := d ++ [x].
Definition pop_front {A} (d : list A) : list A := tail d.
Definition back {A} (d : list A) : option A := last d.

(** [BufferChain()].  [libcpp] selects the branch compiled under
    [_LIBCPP_VERSION] or [__clang__], which pushes a dummy element and pops
    it again. *)
Definition BufferChain_new (libcpp : bool) : option BufferChain :=
  if libcpp then
    e ← BufferChainElement_new BinaryBuffer_null 0 default_offset;
    Some (mkChain (pop_front (push_back [] e)) false 0)
  else Some (mkChain [] false 0).

(** [_size()] *)
Definition _size (c : BufferChain) : Z :=
  match back (elements_ c) with
  | None => 0
  | Some e => element_count e
  end.

(** [size()] *)
Definition size (c : BufferChain) : Z := _size c.

(** [Append(BinaryBufferBuilder& b)]: the new chain and the builder after
    [b.Detach()]. *)
Definition Append (c : BufferChain) (b : BinaryBufferBuilder)
  : option (BufferChain * BinaryBufferBuilder) :=
  e ← BufferChainElement_new (BinaryBuffer_of b)
        (size_t_add (_size c) (elements b)) default_offset;
  Some (mkChain (push_back (elements_ c) e) (closed_ c) (S (notified_ c)),
        Detach b).

(** The chain [Append(BinaryBufferBuilder&)] leaves behind, written out
    (see [Append_eq]). *)
Definition appended (c : BufferChain) (b : BinaryBufferBuilder) : BufferChain :=
  mkChain
    (elements_ c ++
       [mkElement (BinaryBuffer_of b) (size_t_add (_size c) (elements b)) 0])
    (closed_ c) (S (notified_ c)).

(** [Append(BufferChainElement&& element)] *)
Definition AppendElement (c : BufferChain) (element : BufferChainElement)
  : BufferChain :=
  mkChain (push_back (elements_ c) element) (closed_ c) (S (notified_ c)).

(** [Close()] *)
Definition Close (c : BufferChain) : BufferChain :=
  mkChain (elements_ c) true (S (notified_ c)).

(** [IsClosed()] *)
Definition IsClosed (c : BufferChain) : bool := closed_ c.

(** [Begin()] and [End()]: a [BufferChainIterator] is a position in the
    deque. *)
Definition Begin (c : BufferChain) : nat := 0%nat.
Definition End (c : BufferChain) : nat := length (elements_ c).

(** A run of [Append(BinaryBufferBuilder&)] calls, one per builder. *)
Fixpoint append_builders (c : BufferChain) (bs : list BinaryBufferBuilder)
  : option BufferChain :=
  match bs with
  | [] => Some c
  | b :: rest => r ← Append c b; append_builders r.1 rest
  end.

(** The two overloads of [Append] as operations on a chain.  The element
    given to [Append(BufferChainElement&&)] comes out of the constructor,
    called with [(b, count, offset)]. *)
Inductive append_op :=
| AppendBuilder (b : BinaryBufferBuilder)
| AppendConstructed (b : BinaryBuffer) (count offset : Z).

Definition run_op (c : BufferChain) (op : append_op) : option BufferChain :=
  match op with
  | AppendBuilder b => r ← Append c b; Some r.1
  | AppendConstructed b count offset =>
      e ← BufferChainElement_new b count offset; Some (AppendElement c e)
  end.

Fixpoint run_ops (c : BufferChain) (ops : list append_op)
  : option BufferChain :=
  match ops with
  | [] => Some c
  | op :: rest => c' ← run_op c op; run_ops c' rest
  end.

(** An operation that keeps the counts cumulative: a builder whose elements
    fit into what is left of the [size_t] range, or an element built with
    offset 0 and a count not below the current [size()]. *)
Definition op_in_step (c : BufferChain) (op : append_op) : Prop :=
  match op with
  | AppendBuilder b =>
      0 <= elements b ∧ _size c + elements b < SIZE_MODULUS
  | AppendConstructed _ count offset => _size c <= count ∧ offset = 0
  end.

Fixpoint ops_in_step (c : BufferChain) (ops : list append_op) : Prop :=
  match ops with
  | [] => True
  | op :: rest =>
      op_in_step c op ∧
      match run_op c op with
      | Some c' => ops_in_step c' rest
      | None => False
      end
  end.

(** The [element_count] fields of a chain, front to back. *)
Definition counts (c : BufferChain) : list Z := element_count <$> elements_ c.

(** ** OrderedBufferChain

    [buffers_] is a [std::map<size_t, std::vector<BufferChainElement>>]: a
    finite map whose iteration visits the keys in ascending order. *)

Record OrderedBufferChain := mkOrdered {
  buffers_ : gmap Z (list BufferChainElement)
}.

Definition OrderedBufferChain_new : OrderedBufferChain := mkOrdered ∅.

(** Two map entries compared by key. *)
Definition key_le (x y : Z * list BufferChainElement) : Prop := x.1 <= y.1.

#[global] Instance key_le_dec x y : Decision (key_le x y) := Z_le_dec x.1 y.1.

(** [buffers_.begin() .. buffers_.end()]: the entries, keys ascending. *)
Definition in_order (m : gmap Z (list BufferChainElement))
  : list (Z * list BufferChainElement) :=
  merge_sort key_le (map_to_list m).

(** [OrderedBufferChain::Append(rank, b)] *)
Definition OrderedAppend (o : OrderedBufferChain) (rank : Z)
  (b : BinaryBufferBuilder) : option (OrderedBufferChain * BinaryBufferBuilder) :=
  let m :=
    match buffers_ o !! rank with
    | None => <[rank := []]> (buffers_ o)
    | Some _ => buffers_ o
    end in
  e ← BufferChainElement_new (BinaryBuffer_of b) (elements b) default_offset;
  Some (mkOrdered (<[rank := push_back (default [] (m !! rank)) e]> m),
        Detach b).

(** The inner loop of [MoveTo]: the buffers of one key.  The state is the
    running counter [elements] and the target chain. *)
Fixpoint MoveTo_buffers (bufs : list BufferChainElement)
  (st : Z * BufferChain) : option (Z * BufferChain) :=
  match bufs with
  | [] => Some st
  | buf_elem :: rest =>
      let elements := size_t_add st.1 (element_count buf_elem) in
      e ← BufferChainElement_new (buffer buf_elem) elements default_offset;
      MoveTo_buffers rest (elements, AppendElement st.2 e)
  end.

(** The outer loop of [MoveTo]: the keys in their order. *)
Fixpoint MoveTo_keys (its : list (Z * list BufferChainElement))
  (st : Z * BufferChain) : option (Z * BufferChain) :=
  match its with
  | [] => Some st
  | it :: rest => st' ← MoveTo_buffers it.2 st; MoveTo_keys rest st'
  end.

(** [OrderedBufferChain::MoveTo(target)]; [buffers_] is left as it is. *)
Definition MoveTo (o : OrderedBufferChain) (target : BufferChain)
  : option BufferChain :=
  st ← MoveTo_keys (in_order (buffers_ o)) (0, target); Some st.2.

(** A run of [OrderedBufferChain::Append] calls, given as (rank, builder). *)
Fixpoint ordered_appends (o : OrderedBufferChain)
  (h : list (Z * BinaryBufferBuilder)) : option OrderedBufferChain :=
  match h with
  | [] => Some o
  | rb :: rest => r ← OrderedAppend o rb.1 rb.2; ordered_appends r.1 rest
  end.

(** The buffers of a list of map entries, each tagged with its key, in the
    order the two nested loops of [MoveTo] visit them. *)
Definition flat (its : list (Z * list BufferChainElement))
  : list (Z * BufferChainElement) :=
  it ← its; pair it.1 <$> it.2.

(** The staged elements with their ranks, in the order [MoveTo] visits
    them. *)
Definition staged (o : OrderedBufferChain) : list (Z * BufferChainElement) :=
  flat (in_order (buffers_ o)).

(** The vector stored under [rank] (empty when the key is absent). *)
Definition bucket (o : OrderedBufferChain) (rank : Z) : list BufferChainElement :=
  default [] (buffers_ o !! rank).

(** The elements a run of [OrderedBufferChain::Append] calls constructs,
    each with the rank it was appended under, in call order. *)
Definition sent (h : list (Z * BinaryBufferBuilder))
  : list (Z * BufferChainElement) :=
  (λ rb, (rb.1, mkElement (BinaryBuffer_of rb.2) (elements rb.2) 0)) <$> h.

(** The elements [MoveTo] constructs from the buffers [bufs] when its counter
    stands at [acc], written out (see [MoveTo_buffers_eq]). *)
Fixpoint transcribed (acc : Z) (bufs : list BufferChainElement)
  : list BufferChainElement :=
  match bufs with
  | [] => []
  | buf_elem :: rest =>
      let acc' := size_t_add acc (element_count buf_elem) in
      mkElement (buffer buf_elem) acc' 0 :: transcribed acc' rest
  end.

(** Entries of rank [r]. *)
Definition of_rank (r : Z) (l : list (Z * BufferChainElement))
  : list (Z * BufferChainElement) :=
  filter (λ x, x.1 = r) l.

End Data.

(** * UfsFileBase *)

Module Io.

(** What the body of a [void] member function did: it returned, or it threw
    [IoError] through [THRILL_THROW_ERRNO]. *)
Inductive outcome := Returned | Thrown_IoError.

Record UfsFileBase := mkUfs {
  file_des : Z;
  m_mode : Z;
  m_is_device : bool;
  filename : string
}.

Definition set_file_des (f : UfsFileBase) (fd : Z) : UfsFileBase :=
  mkUfs fd (m_mode f) (m_is_device f) (filename f).

Section Close.
(** The operating system: its state and the system call [::close(fd)],
    which gives a return code and the state after the call. *)
Context {World : Type} (sys_close : Z → World → Z * World).

(** [UfsFileBase::close()] *)
Definition close (f : UfsFileBase) (w : World)
  : outcome * UfsFileBase * World :=
  if decide (file_des f = -1) then (Returned, f, w)
  else
    let rw := sys_close (file_des f) w in
    if decide (rw.1 < 0) then (Thrown_IoError, f, rw.2)
    else (Returned, set_file_des f (-1), rw.2).

(** [UfsFileBase::~UfsFileBase()] *)
Definition destroy (f : UfsFileBase) (w : World)
  : outcome * UfsFileBase * World := close f w.

(** [n] calls of [close()] in a row, stopping at the first that throws. *)
Fixpoint close_times (n : nat) (f : UfsFileBase) (w : World)
  : outcome * UfsFileBase * World :=
  match n with
  | O => (Returned, f, w)
  | S k =>
      match close f w with
      | (Returned, f', w') => close_times k f' w'
      | thrown => thrown
      end
  end.
End Close.

(** ** The rest of UfsFileBase

    The constructor and the other member functions, as the preprocessor
    leaves them in a POSIX build (none of [THRILL_WINDOWS], [__MINGW32__],
    [__APPLE__]); [THRILL_DIRECT_IO_OFF] is the parameter [direct_io_off].

    The mode bits of [FileBase] and the constants of the system headers are
    declared outside this file; their values are parameters. *)

Record Constants := mkConstants {
  RDONLY : Z; WRONLY : Z; RDWR : Z; CREAT : Z; DIRECT : Z; TRUNC : Z;
  SYNC : Z; NO_LOCK : Z; REQUIRE_DIRECT : Z;
  O_RDONLY : Z; O_WRONLY : Z; O_RDWR : Z; O_CREAT : Z; O_TRUNC : Z;
  O_DIRECT : Z; O_RSYNC : Z; O_DSYNC : Z; O_SYNC : Z;
  S_IREAD : Z; S_IWRITE : Z; S_IRGRP : Z; S_IWGRP : Z;
  EINVAL : Z; F_RDLCK : Z; F_WRLCK : Z; SEEK_SET : Z; SEEK_END : Z
}.

(** The system calls the file makes, each with its return value and the
    state of the operating system after the call: [::open] also gives
    [errno], [::fstat] also gives [S_ISBLK(st.st_mode)], and [sys_setlk fd
    l_type] is [::fcntl(fd, F_SETLK, &lock_struct)]. *)
Record System {World : Type} := mkSystem {
  sys_open : string → Z → Z → World → Z * Z * World;
  sys_fstat : Z → World → Z * bool * World;
  sys_setlk : Z → Z → World → Z * World;
  sys_lseek : Z → Z → Z → World → Z * World;
  sys_ftruncate : Z → Z → World → Z * World;
  sys_remove : string → World → Z * World;
  sys_unlink : string → World → Z * World;
  sys_close : Z → World → Z * World
}.
Arguments System : clear implicits.

(** A member function with a result: the value it returned, or [IoError]. *)
Inductive result (A : Type) := Ok (a : A) | Throw.
Arguments Ok {A} a.
Arguments Throw {A}.

(** [mode & flag] as a condition. *)
Definition has (mode flag : Z) : bool := negb (Z.land mode flag =? 0).

(** [if (c) flags |= bit;] *)
Definition or_if (c : bool) (flags bit : Z) : Z :=
  if c then Z.lor flags bit else flags.

(** The conversion of an [offset_type] to the [off_t] of the system calls.
    [FileBase::offset_type] is declared in a header that is not part of the
    sources; it is taken as an unsigned 64-bit integer, and [off_t] as a
    signed 64-bit one, so the conversion keeps the value modulo 2^64. *)
Definition to_off_t (x : Z) : Z := (x + 2 ^ 63) mod 2 ^ 64 - 2 ^ 63.



Section Ufs.
Context (K : Constants) {World : Type} (os : System World)
  (direct_io_off : bool).

(** [flags] when the constructor reaches its first [::open]. *)
Definition open_flags (mode : Z) : Z :=
  let flags := 0 in
  let flags := or_if (has mode (RDONLY K)) flags (O_RDONLY K) in
  let flags := or_if (has mode (WRONLY K)) flags (O_WRONLY K) in
  let flags := or_if (has mode (RDWR K)) flags (O_RDWR K) in
  let flags := or_if (has mode (CREAT K)) flags (O_CREAT K) in
  let flags := or_if (has mode (TRUNC K)) flags (O_TRUNC K) in
  let flags :=
    or_if ((has mode (DIRECT K) || has mode (REQUIRE_DIRECT K))
           && negb direct_io_off) flags (O_DIRECT K) in
  let flags := or_if (has mode (SYNC K)) flags (O_RSYNC K) in
  let flags := or_if (has mode (SYNC K)) flags (O_DSYNC K) in
  or_if (has mode (SYNC K)) flags (O_SYNC K).

(** [flags &= ~O_DIRECT] *)
Definition retry_flags (mode : Z) : Z :=
  Z.land (open_flags mode) (Z.lnot (O_DIRECT K)).






(** [UfsFileBase::_size()] *)
Definition _size (f : UfsFileBase) (w : World) : result Z * World :=
  let r := sys_lseek os (file_des f) 0 (SEEK_END K) w in
  if decide (r.1 < 0) then (Throw, r.2) else (Ok r.1, r.2).

(** [UfsFileBase::size()] *)
Definition size (f : UfsFileBase) (w : World) : result Z * World := _size f w.

(** [UfsFileBase::_set_size(newsize)].  [newsize] is an [offset_type]; the
    two system calls take an [off_t]. *)
Definition _set_size (f : UfsFileBase) (newsize : Z) (w : World)
  : outcome * World :=
  match _size f w with
  | (Throw, w1) => (Thrown_IoError, w1)
  | (Ok cur_size, w1) =>
      let t :=
        if negb (has (m_mode f) (RDONLY K)) && negb (m_is_device f)
        then sys_ftruncate os (file_des f) (to_off_t newsize) w1
        else (0, w1) in
      if decide (t.1 ≠ 0) then (Thrown_IoError, t.2)
      else if decide (cur_size < newsize) then
        let r := sys_lseek os (file_des f) (to_off_t (newsize - 1))
                   (SEEK_SET K) t.2 in
        if decide (r.1 < 0) then (Thrown_IoError, r.2) else (Returned, r.2)
      else (Returned, t.2)
  end.

(** [UfsFileBase::set_size(newsize)] *)
Definition set_size (f : UfsFileBase) (newsize : Z) (w : World)
  : outcome * World := _set_size f newsize w.

(** [UfsFileBase::close_remove()]: a failure of [::remove] is logged, not
    thrown. *)
Definition close_remove (f : UfsFileBase) (w : World)
  : outcome * UfsFileBase * World :=
  match close (sys_close os) f w with
  | (Returned, f', w') =>
      if m_is_device f' then (Returned, f', w')
      else (Returned, f', (sys_remove os (filename f') w').2)
  | thrown => thrown
  end.

(** [UfsFileBase::unlink()] *)
Definition unlink (f : UfsFileBase) (w : World) : outcome * World :=
  if m_is_device f then (Returned, w)
  else
    let r := sys_unlink os (filename f) w in
    if decide (r.1 ≠ 0) then (Thrown_IoError, r.2) else (Returned, r.2).

(** [UfsFileBase::is_device()] *)
Definition is_device (f : UfsFileBase) : bool := m_is_device f.

End Ufs.

(** A choice of values for the constants, for the examples: powers of two
    for the mode bits, and the values of Linux on x86-64 for the rest. *)
Definition sample_constants : Constants := {|
  RDONLY := 1; WRONLY := 2; RDWR := 4; CREAT := 8; DIRECT := 16;
  TRUNC := 32; SYNC := 64; NO_LOCK := 128; REQUIRE_DIRECT := 256;
  O_RDONLY := 0; O_WRONLY := 1; O_RDWR := 2; O_CREAT := 64; O_TRUNC := 512;
  O_DIRECT := 16384; O_RSYNC := 1052672; O_DSYNC := 4096; O_SYNC := 1052672;
  S_IREAD := 256; S_IWRITE := 128; S_IRGRP := 32; S_IWGRP := 16;
  EINVAL := 22; F_RDLCK := 0; F_WRLCK := 1; SEEK_SET := 0; SEEK_END := 2
|}.

(** An operating system with one regular file, for the examples.  Its state
    is the length of the file; every call succeeds, [::open] gives the
    descriptor 3. *)
Definition one_file_os : System Z := {|
  sys_open := λ _ _ _ w, (3, 0, w);
  sys_fstat := λ _ w, (0, false, w);
  sys_setlk := λ _ _ w, (0, w);
  sys_lseek := λ _ off whence w, (if whence =? 2 then w + off else off, w);
  sys_ftruncate := λ _ n _, (0, n);
  sys_remove := λ _ w, (0, w);
  sys_unlink := λ _ w, (0, w);
  sys_close := λ _ w, (0, w)
|}.

(** The same, except that [::ftruncate], [::remove] and [::unlink] fail. *)
Definition read_only_os : System Z := {|
  sys_open := sys_open one_file_os;
  sys_fstat := sys_fstat one_file_os;
  sys_setlk := sys_setlk one_file_os;
  sys_lseek := sys_lseek one_file_os;
  sys_ftruncate := λ _ _ w, (-1, w);
  sys_remove := λ _ w, (-1, w);
  sys_unlink := λ _ w, (-1, w);
  sys_close := sys_close one_file_os
|}.

End Io.

(** * Emitters, iterators, channels and scatter

    The manager, the emitters, the iterators and the scatter protocol live in
    files that are not part of the sources; only their test
    ([tests/data/manager_channels_test.cpp]) is.  This module models them
    from the specification, on top of the chains above. *)

Module Channels.
Import Data.

(** Modelled from the spec: the record encoding of a string, "u32 length ||
    bytes" with the length little-endian (the serialiser is missing from the
    sources). *)
Definition byte_of_Z (z : Z) : byte :=
  default x00 (Byte.of_N (Z.to_N (z mod 256))).

Definition Z_of_byte (b : byte) : Z := Z.of_N (Byte.to_N b).

Definition u32_le (n : Z) : list byte :=
  [byte_of_Z n; byte_of_Z (n / 256); byte_of_Z (n / 65536);
   byte_of_Z (n / 16777216)].

Definition read_u32_le (bs : list byte) : option (Z * list byte) :=
  match bs with
  | b0 :: b1 :: b2 :: b3 :: rest =>
      Some (Z_of_byte b0 + 256 * Z_of_byte b1 + 65536 * Z_of_byte b2
            + 16777216 * Z_of_byte b3, rest)
  | _ => None
  end.

Definition encode_string (x : string) : list byte :=
  u32_le (Z.of_nat (String.length x)) ++ list_byte_of_string x.

Definition decode_string (bs : list byte) : option (string * list byte) :=
  '(n, rest) ← read_u32_le bs;
  if decide (Z.to_nat n ≤ length rest)%nat
  then Some (string_of_list_byte (take (Z.to_nat n) rest), drop (Z.to_nat n) rest)
  else None.

(** Modelled from the spec: the emitter of section 4.2 on its local path (the
    emitter class is missing from the sources).  [emit] serialises into the
    builder and flushes once the builder exceeds the block threshold of
    32 KiB; [flush] seals a non-empty builder into the chain; [close] flushes
    and, being the only sender of a local collection, closes the chain.
    [None] stands for the error of emitting after close. *)
Definition BLOCK_THRESHOLD : Z := 32768.

Record Emitter := mkEmitter {
  em_builder : BinaryBufferBuilder;
  em_closed : bool
}.

Definition Emitter_new : Emitter := mkEmitter (mkBuilder [] 0) false.

Definition Emitter_Flush (em : Emitter) (chain : BufferChain)
  : option (Emitter * BufferChain) :=
  match builder_bytes (em_builder em) with
  | [] => Some (em, chain)
  | _ :: _ =>
      r ← Append chain (em_builder em);
      Some (mkEmitter r.2 (em_closed em), r.1)
  end.

Definition Emitter_Emit (x : string) (em : Emitter) (chain : BufferChain)
  : option (Emitter * BufferChain) :=
  if em_closed em then None
  else
    let b := mkBuilder (builder_bytes (em_builder em) ++ encode_string x)
               (size_t_add (elements (em_builder em)) 1) in
    let em' := mkEmitter b (em_closed em) in
    if decide (BLOCK_THRESHOLD < Z.of_nat (length (builder_bytes b)))
    then Emitter_Flush em' chain
    else Some (em', chain).

Definition Emitter_Close (em : Emitter) (chain : BufferChain)
  : option (Emitter * BufferChain) :=
  r ← Emitter_Flush em chain;
  Some (mkEmitter (em_builder r.1) true, Close r.2).

(** Modelled from the spec: the iterator of section 4.3 (the iterator class
    is missing from the sources): a block index and a byte cursor inside
    that block. *)
Record Iterator := mkIterator { it_block : nat; it_cursor : nat }.

Definition block_length (chain : BufferChain) (k : nat) : nat :=
  match elements_ chain !! k with
  | Some e => length (bytes (buffer e))
  | None => O
  end.

(** The current block has remaining bytes. *)
Definition bytes_left (it : Iterator) (chain : BufferChain) : bool :=
  bool_decide (it_cursor it < block_length chain (it_block it))%nat.

(** Some later block is already present. *)
Definition later_block (it : Iterator) (chain : BufferChain) : bool :=
  bool_decide (S (it_block it) < length (elements_ chain))%nat.

Definition HasNext (it : Iterator) (chain : BufferChain) : bool :=
  bytes_left it chain || later_block it chain.

(** At a block boundary, with a later block present, move to that block. *)
Definition advance (it : Iterator) (chain : BufferChain) : Iterator :=
  if negb (bytes_left it chain) && later_block it chain
  then mkIterator (S (it_block it)) 0
  else it.

(** [None] stands for the error of reading past the end (or of a block that
    does not decode). *)
Definition Next (it : Iterator) (chain : BufferChain)
  : option (string * Iterator) :=
  if HasNext it chain then
    let it1 := advance it chain in
    e ← elements_ chain !! it_block it1;
    '(x, rest) ← decode_string (drop (it_cursor it1) (bytes (buffer e)));
    let cursor := (length (bytes (buffer e)) - length rest)%nat in
    Some (x, advance (mkIterator (it_block it1) cursor) chain)
  else None.

(** The chain is closed and the cursor has reached the end of the last
    block. *)
Definition IsFinished (it : Iterator) (chain : BufferChain) : bool :=
  IsClosed chain && negb (bytes_left it chain) && negb (later_block it chain).

(** Modelled from the spec: the channel of sections 3 and 4.4 (the channel
    and the multiplexer are missing from the sources): the target chain, the
    staging area of an ordered channel, and one closed bit per sender. *)
Record Channel := mkChannel {
  target : BufferChain;
  ordered : bool;
  staging : OrderedBufferChain;
  closed_senders : list bool
}.

(** A sender's close: set its bit; once all bits are set, merge the staging
    area of an ordered channel into the target and close the target. *)
Definition Channel_close_sender (ch : Channel) (rank : nat) : option Channel :=
  let bits := <[rank := true]> (closed_senders ch) in
  if forallb id bits then
    t ← (if ordered ch then MoveTo (staging ch) (target ch)
         else Some (target ch));
    Some (mkChannel (Close t) (ordered ch) (staging ch) bits)
  else Some (mkChannel (target ch) (ordered ch) (staging ch) bits).

(** Modelled from the spec: the wire frames of section 6, as far as the
    scatter of one worker fills them in. *)
Inductive frame_kind := DATA | CLOSE.

Record Frame := mkFrame {
  kind : frame_kind;
  src_rank : nat;
  dst_rank : nat;
  channel_id : nat;
  frame_elements : Z;
  payload : list byte
}.

(** Modelled from the spec: one worker's manager (missing from the sources):
    its rank, the group size, the local collections and the channels, both
    indexed by the ids handed out in allocation order, and the frames it has
    sent. *)
Record Manager := mkManager {
  my_rank : nat;
  group_size : nat;
  dias : list BufferChain;
  channels : list Channel;
  outbox : list Frame
}.

Definition Manager_new (rank size : nat) : Manager :=
  mkManager rank size [] [] [].

Definition AllocateNetworkChannel (is_ordered : bool) (m : Manager)
  : option (nat * Manager) :=
  c ← BufferChain_new false;
  let ch := mkChannel c is_ordered OrderedBufferChain_new
              (replicate (group_size m) false) in
  Some (length (channels m),
        mkManager (my_rank m) (group_size m) (dias m) (channels m ++ [ch])
          (outbox m)).

Definition AllocateDIA (m : Manager) : option (nat * Manager) :=
  c ← BufferChain_new false;
  Some (length (dias m),
        mkManager (my_rank m) (group_size m) (dias m ++ [c]) (channels m)
          (outbox m)).

Definition set_dia (m : Manager) (id : nat) (c : BufferChain) : Manager :=
  mkManager (my_rank m) (group_size m) (<[id := c]> (dias m)) (channels m)
    (outbox m).

Definition set_channel (m : Manager) (id : nat) (ch : Channel) : Manager :=
  mkManager (my_rank m) (group_size m) (dias m) (<[id := ch]> (channels m))
    (outbox m).

Definition send (m : Manager) (f : Frame) : Manager :=
  mkManager (my_rank m) (group_size m) (dias m) (channels m) (outbox m ++ [f]).

(** An emitter operation on the local collection [id]. *)
Definition on_dia (op : Emitter → BufferChain → option (Emitter * BufferChain))
  (id : nat) (em : Emitter) (m : Manager) : option (Emitter * Manager) :=
  c ← dias m !! id;
  r ← op em c;
  Some (r.1, set_dia m id r.2).

Definition GetLocalEmitter (id : nat) (m : Manager) : option Emitter :=
  _ ← dias m !! id; Some Emitter_new.

Definition GetIterator (id : nat) (m : Manager) : option Iterator :=
  _ ← channels m !! id; Some (mkIterator 0 0).

(** Modelled from the spec: the scatter protocol of section 4.5 as one worker
    runs it (missing from the sources).  [offsets] holds, for each
    destination in rank order, the end of its range of the source.

    The specification describes the blocks of a range in two ways: step 1
    and step 2 cut the leading and the trailing block of the range
    ("intra-block cuts", "possibly a sliced leading/trailing block"), edge
    case (b) sends them whole.  An iterator of section 4.3 reads every byte
    of a block, so with whole blocks a receiver would see records of its
    neighbours' ranges, against property P5 and scenario 4, where two ranges
    share one block.  The model follows steps 1 and 2: a block that lies in
    the range goes as it is, a block that the range cuts is cut at the
    boundaries of its records. *)

(** Modelled from the spec: the bytes the record type's encoding gives a
    sequence of records, one behind the other (section 6). *)
Definition encode_records (xs : list string) : list byte :=
  x ← xs; encode_string x.

(** Modelled from the spec: an intra-block cut (section 4.5, step 1).  The
    bytes of the first [n] records of [bs], and the bytes behind them;
    [None] when [bs] does not hold [n] records. *)
Fixpoint split_records (n : nat) (bs : list byte)
  : option (list byte * list byte) :=
  match n with
  | O => Some ([], bs)
  | S k =>
      '(_, rest) ← decode_string bs;
      '(front, back) ← split_records k rest;
      Some (take (length bs - length rest) bs ++ front, back)
  end.

(** Modelled from the spec: the sliced block (section 4.5, step 2): [count]
    records of [bs] behind the first [skip]. *)
Definition slice_records (skip count : nat) (bs : list byte)
  : option (list byte) :=
  '(_, back) ← split_records skip bs;
  '(front, _) ← split_records count back;
  Some front.

(** Modelled from the spec: the blocks that cover the range [lo, hi) of the
    source (section 4.5, step 1), each with the number of its records.
    [prev] is the cumulative count in front of the block, so the block holds
    the records [prev, element_count e) of the source.  A block inside the
    range is passed on by reference; a block the range cuts is sliced. *)
Fixpoint covering (prev : Z) (els : list BufferChainElement) (lo hi : Z)
  : option (list (BinaryBuffer * Z)) :=
  match els with
  | [] => Some []
  | e :: rest =>
      let first := Z.max lo prev in
      let last := Z.min hi (element_count e) in
      blocks ← covering (element_count e) rest lo hi;
      if decide (first < last) then
        if decide (first = prev ∧ last = element_count e)
        then Some ((buffer e, last - first) :: blocks)
        else
          sliced ← slice_records (Z.to_nat (first - prev))
                      (Z.to_nat (last - first)) (bytes (buffer e));
          Some ((mkBinaryBuffer sliced, last - first) :: blocks)
      else Some blocks
  end.

(** Modelled from the spec: the local path (section 4.5, step 2): the block
    references go straight into the target chain. *)
Fixpoint append_blocks (t : BufferChain) (blocks : list (BinaryBuffer * Z))
  : option BufferChain :=
  match blocks with
  | [] => Some t
  | bn :: rest =>
      e ← BufferChainElement_new bn.1 (size_t_add (_size t) bn.2) default_offset;
      append_blocks (AppendElement t e) rest
  end.

(** Modelled from the spec: the part of the protocol for destination [j]
    (section 4.5, steps 1 to 3). *)
Definition scatter_to (src : BufferChain) (id : nat) (lo hi : Z) (j : nat)
  (m : Manager) : option Manager :=
  blocks ← covering 0 (elements_ src) lo hi;
  if decide (j = my_rank m) then
    ch ← channels m !! id;
    t ← append_blocks (target ch) blocks;
    ch' ← Channel_close_sender
            (mkChannel t (ordered ch) (staging ch) (closed_senders ch))
            (my_rank m);
    Some (set_channel m id ch')
  else
    let data :=
      (λ bn, mkFrame DATA (my_rank m) j id bn.2 (bytes bn.1)) <$> blocks in
    Some (send (foldl send m data) (mkFrame CLOSE (my_rank m) j id 0 [])).

(** Modelled from the spec: the destinations in rank order, each range
    starting where the one before ended. *)
Fixpoint scatter_loop (src : BufferChain) (id : nat) (lo : Z)
  (offsets : list Z) (j : nat) (m : Manager) : option Manager :=
  match offsets with
  | [] => Some m
  | hi :: rest =>
      m' ← scatter_to src id lo hi j m;
      scatter_loop src id hi rest (S j) m'
  end.

(** Modelled from the spec: [Scatter<std::string>(src, dst, offsets)]. *)
Definition Scatter (src_id channel_id : nat) (offsets : list Z) (m : Manager)
  : option Manager :=
  src ← dias m !! src_id;
  scatter_loop src channel_id 0 offsets 0 m.

(** Modelled from the spec: the multiplexer's handling of one inbound frame
    (section 4.4).  [CHANNEL_DATA]: a buffer of the payload and an element
    with the frame's element count, appended to the staging area under the
    sender's rank on an ordered channel, to the target chain otherwise.
    [CHANNEL_CLOSE]: the close of that sender.  [None] when the channel is
    not allocated. *)
Definition receive (f : Frame) (m : Manager) : option Manager :=
  ch ← channels m !! channel_id f;
  match kind f with
  | DATA =>
      if ordered ch then
        r ← OrderedAppend (staging ch) (Z.of_nat (src_rank f))
              (mkBuilder (payload f) (frame_elements f));
        Some (set_channel m (channel_id f)
                (mkChannel (target ch) (ordered ch) r.1 (closed_senders ch)))
      else
        e ← BufferChainElement_new (mkBinaryBuffer (payload f))
              (frame_elements f) default_offset;
        Some (set_channel m (channel_id f)
                (mkChannel (AppendElement (target ch) e) (ordered ch)
                   (staging ch) (closed_senders ch)))
  | CLOSE =>
      ch' ← Channel_close_sender ch (src_rank f);
      Some (set_channel m (channel_id f) ch')
  end.

(** Modelled from the spec: the connections of the group (section 4.6), as
    far as the scatter uses them: a frame reaches the worker of its
    destination rank.  The workers are listed by rank. *)
Definition deliver (ms : list Manager) (f : Frame) : option (list Manager) :=
  m ← ms !! dst_rank f;
  m' ← receive f m;
  Some (<[dst_rank f := m']> ms).

(** Modelled from the spec: the frames of a list, delivered one after the
    other. *)
Fixpoint deliver_all (ms : list Manager) (frames : list Frame)
  : option (list Manager) :=
  match frames with
  | [] => Some ms
  | f :: rest => ms' ← deliver ms f; deliver_all ms' rest
  end.

(** Modelled from the spec: the frames the workers have sent, in the order
    [senders] lists the sending ranks; the frames of one sender stay in the
    order it sent them (section 4.2, per-emitter FIFO). *)
Definition sent_frames (ms : list Manager) (senders : list nat) : list Frame :=
  i ← senders; default [] (outbox <$> ms !! i).

(** What a test does with an emitter of strings between [GetLocalEmitter]
    and [Close]: [emitter(x)] and [emitter.Flush()]. *)
Inductive emitter_op := Emit (x : string) | Flush.

Definition run_emitter_op (id : nat) (op : emitter_op) (em : Emitter)
  (m : Manager) : option (Emitter * Manager) :=
  match op with
  | Emit x => on_dia (Emitter_Emit x) id em m
  | Flush => on_dia Emitter_Flush id em m
  end.

Fixpoint run_emitter_ops (id : nat) (ops : list emitter_op) (em : Emitter)
  (m : Manager) : option (Emitter * Manager) :=
  match ops with
  | [] => Some (em, m)
  | op :: rest =>
      r ← run_emitter_op id op em m; run_emitter_ops id rest r.1 r.2
  end.

(** The strings a run of emitter operations emits, in order. *)
Definition emitted (ops : list emitter_op) : list string :=
  op ← ops; match op with Emit x => [x] | Flush => [] end.

(** The statements the workers of the scatter tests share, up to and
    including the call of [Scatter]: allocate the channel (ordered) and the
    local collection, emit, close the emitter, scatter.  The result is the
    channel id and the manager. *)
Definition scatter_worker (rank size : nat) (ops : list emitter_op)
  (offsets : list Z) : option (nat * Manager) :=
  let m := Manager_new rank size in
  '(channel_id, m) ← AllocateNetworkChannel true m;
  '(src_id, m) ← AllocateDIA m;
  emitter ← GetLocalEmitter src_id m;
  '(emitter, m) ← run_emitter_ops src_id ops emitter m;
  '(emitter, m) ← on_dia Emitter_Close src_id emitter m;
  m ← Scatter src_id channel_id offsets m;
  Some (channel_id, m).

(** A chain whose blocks hold the groups of records [gs], one block per
    group, front to back; no block is empty. *)
Definition holds (els : list BufferChainElement) (gs : list (list string))
  : Prop :=
  Forall2 (λ e g, bytes (buffer e) = encode_records g ∧ g ≠ []) els gs.

(** The elements of a chain after the flushes of the groups [gs], behind
    [prev] records. *)
Fixpoint blocks_of (prev : Z) (gs : list (list string))
  : list BufferChainElement :=
  match gs with
  | [] => []
  | g :: rest =>
      let count := prev + Z.of_nat (length g) in
      mkElement (mkBinaryBuffer (encode_records g)) count 0
      :: blocks_of count rest
  end.

(** The records [lo, hi) of a source, of which [xs] are the records from
    [prev] on. *)
Definition range_records (prev : Z) (xs : list string) (lo hi : Z)
  : list string :=
  take (Z.to_nat (hi - Z.max lo prev)) (drop (Z.to_nat (lo - prev)) xs).

(** A string whose length fits the "u32 length" of its encoding. *)
Definition short (x : string) : Prop := Z.of_nat (String.length x) < 2 ^ 32.

(** A block of a range, with its number of records, holds the records
    [g]. *)
Definition block_part (b : BinaryBuffer * Z) (g : list string) : Prop :=
  bytes b.1 = encode_records g ∧ g ≠ [] ∧ b.2 = Z.of_nat (length g).

(** An open emitter on a local collection: the chain holds the flushed
    groups [gs], with their cumulative counts, and the builder the records
    [pending]. *)
Definition emitter_state (em : Emitter) (c : BufferChain)
  (gs : list (list string)) (pending : list string) : Prop :=
  elements_ c = blocks_of 0 gs ∧
  builder_bytes (em_builder em) = encode_records pending ∧
  elements (em_builder em) = Z.of_nat (length pending) ∧
  em_closed em = false.

Local Open Scope string_scope.

(** The body of the test [Scatter_OneWorker], statement by statement, up to
    and including the call of [Scatter]: the channel id and the manager. *)
Definition Scatter_OneWorker_scatter : option (nat * Manager) :=
  let m := Manager_new 0 1 in
  '(channel_id, m) ← AllocateNetworkChannel true m;
  '(src_id, m) ← AllocateDIA m;
  emitter ← GetLocalEmitter src_id m;
  '(emitter, m) ← on_dia (Emitter_Emit "foo") src_id emitter m;
  '(emitter, m) ← on_dia (Emitter_Emit "bar") src_id emitter m;
  '(emitter, m) ← on_dia Emitter_Flush src_id emitter m;
  '(emitter, m) ←
    on_dia (Emitter_Emit "breakfast is the most important meal of the day.")
      src_id emitter m;
  '(emitter, m) ← on_dia Emitter_Close src_id emitter m;
  m ← Scatter src_id channel_id [3] m;
  Some (channel_id, m).

(** The rest of the test.  The result holds what the test looks at: the
    first [HasNext()], the three values of [Next()], and, after them,
    [HasNext()] and [IsFinished()]. *)
Definition Scatter_OneWorker : option (bool * list string * bool * bool) :=
  '(channel_id, m) ← Scatter_OneWorker_scatter;
  it ← GetIterator channel_id m;
  ch ← channels m !! channel_id;
  let has_next := HasNext it (target ch) in
  '(x1, it) ← Next it (target ch);
  '(x2, it) ← Next it (target ch);
  '(x3, it) ← Next it (target ch);
  Some (has_next, [x1; x2; x3], HasNext it (target ch),
        IsFinished it (target ch)).

End Channels.

(** * NetReadBuffer

    The buffered reader of [c7a/net/net_group.cpp].  The socket is a
    parameter: [recv_one s len] gives the return value of
    [s.recv_one(ptr, len)], the bytes it stored at [ptr], and the socket
    afterwards.  [functional_] is seen through its calls: [calls_] lists the
    buffers it was called with. *)

Module Net.
Import Data.

Record NetReadBuffer := mkReadBuffer {
  size_ : Z;
  buffer_ : list byte;
  calls_ : list (list byte)
}.

(** [NetReadBuffer(socket, buffer_size, functional)]: a buffer of
    [buffer_size] zero bytes; a buffer of size 0 is complete at once. *)
Definition NetReadBuffer_new (buffer_size : nat) : NetReadBuffer :=
  let buffer := replicate buffer_size x00 in
  mkReadBuffer 0 buffer (if decide (buffer_size = O) then [buffer] else []).

(** The bytes [data] stored from position [pos] of [buffer] on. *)
Definition store_at (buffer : list byte) (pos : nat) (data : list byte)
  : list byte :=
  take pos buffer ++ data ++ drop (pos + length data) buffer.

(** What [operator()] did: it returned [true] (call again), returned
    [false] (complete), or threw. *)
Inductive read_outcome := Again | Complete | Thrown_Exception.

Section ReadBuffer.
Context {Socket : Type} (recv_one : Socket → Z → Z * list byte * Socket).

(** [operator () (lowlevel::Socket& s)] *)
Definition on_readable (rb : NetReadBuffer) (s : Socket)
  : read_outcome * NetReadBuffer * Socket :=
  let len := (Z.of_nat (length (buffer_ rb)) - size_ rb) mod SIZE_MODULUS in
  let res := recv_one s len in
  let r := res.1.1 in
  if decide (r < 0) then (Thrown_Exception, rb, res.2)
  else
    let size := size_t_add (size_ rb) r in
    let buffer := store_at (buffer_ rb) (Z.to_nat (size_ rb)) res.1.2 in
    if decide (size = Z.of_nat (length buffer))
    then (Complete, mkReadBuffer size buffer (calls_ rb ++ [buffer]), res.2)
    else (Again, mkReadBuffer size buffer (calls_ rb), res.2).

(** [operator()] called again for as long as it returns [true], at most
    [fuel] times. *)
Fixpoint read_until_complete (fuel : nat) (rb : NetReadBuffer) (s : Socket)
  : read_outcome * NetReadBuffer * Socket :=
  match fuel with
  | O => (Again, rb, s)
  | S k =>
      match on_readable rb s with
      | (Again, rb', s') => read_until_complete k rb' s'
      | done => done
      end
  end.
End ReadBuffer.

(** A socket that delivers a given sequence of chunks, one per call of
    [recv_one], each in full; once they are used up it reports 0 bytes. *)
Definition chunked_recv (s : list (list byte)) (len : Z)
  : Z * list byte * list (list byte) :=
  match s with
  | [] => (0, [], [])
  | chunk :: rest => (Z.of_nat (length chunk), chunk, rest)
  end.

(** The reader in the middle of a message: the bytes [pre] received, [n]
    bytes still to come, [functional_] not called yet. *)
Definition receiving (pre : list byte) (n : nat) : NetReadBuffer :=
  mkReadBuffer (Z.of_nat (length pre)) (pre ++ replicate n x00) [].

(** ** NetGroup::ExecuteLocalMock

    The wiring of the mock group, up to the start of the threads.  A socket
    is known by the pair it came from ([Socket::CreatePair] calls are
    numbered in their order) and by which end of the pair it is; a
    [NetConnection] that was default-constructed has no socket. *)

Record Socket := mkSocket { pair_id : nat; second_end : bool }.

Record NetGroup := mkNetGroup {
  my_rank_ : nat;
  connections_ : list (option Socket)
}.

(** [NetGroup(my_rank, group_size)] *)
Definition NetGroup_new (my_rank group_size : nat) : NetGroup :=
  mkNetGroup my_rank (replicate group_size None).

(** [group[i]->connections_[j] = std::move(NetConnection(s))] *)
Definition connect (group : list NetGroup) (i j : nat) (s : Socket)
  : list NetGroup :=
  alter (λ g, mkNetGroup (my_rank_ g) (<[j := Some s]> (connections_ g)))
    i group.

(** The body of the inner loop; the state is the groups and the number of
    socket pairs created so far. *)
Definition wire_pair (i j : nat) (st : list NetGroup * nat)
  : list NetGroup * nat :=
  let sp := (mkSocket st.2 false, mkSocket st.2 true) in
  (connect (connect st.1 i j sp.1) j i sp.2, S st.2).

(** [for (size_t j = i + 1; j < num_clients; ++j)] *)
Definition wire_row (num_clients i : nat) (st : list NetGroup * nat)
  : list NetGroup * nat :=
  foldl (λ st j, wire_pair i j st) st (seq (S i) (num_clients - S i)).

(** [for (size_t i = 0; i != num_clients; ++i)] *)
Definition wire_all (num_clients : nat) (st : list NetGroup * nat)
  : list NetGroup * nat :=
  foldl (λ st i, wire_row num_clients i st) st (seq 0 num_clients).

(** The groups [ExecuteLocalMock(num_clients, ...)] hands to its threads,
    and the number of socket pairs it created. *)
Definition mock_groups (num_clients : nat) : list NetGroup * nat :=
  wire_all num_clients
    ((λ i, NetGroup_new i num_clients) <$> seq 0 num_clients, O).

(** The socket of [group[a]->connections_[b]], if there is one. *)
Definition connection (group : list NetGroup) (a b : nat) : option Socket :=
  g ← group !! a; c ← connections_ g !! b; c.

(** All [n] groups are there, each with [n] connection slots. *)
Definition dims (n : nat) (group : list NetGroup) : Prop :=
  length group = n ∧ Forall (λ g, length (connections_ g) = n) group.

(** What the loops leave in [connections_[b]] of group [a] when they visit
    the pairs [ps], starting with pair number [c] and [d] in that slot. *)
Fixpoint expected (ps : list (nat * nat)) (c : nat) (d : option Socket)
  (a b : nat) : option Socket :=
  match ps with
  | [] => d
  | p :: rest =>
      expected rest (S c)
        (if decide (a = p.2 ∧ b = p.1) then Some (mkSocket c true)
         else if decide (a = p.1 ∧ b = p.2) then Some (mkSocket c false)
         else d) a b
  end.

(** The pairs (i, j) in the order the two loops visit them. *)
Definition visited (num_clients : nat) : list (nat * nat) :=
  i ← seq 0 num_clients; pair i <$> seq (S i) (num_clients - S i).

End Net.

(** * Helpers of the channel test

    The helpers of the fixture in [tests/data/manager_channels_test.cpp]:
    the two comparisons, over any element type with a decidable equality
    ([operator==] and [operator!=] of [T]), and [ReadIterator], with the
    scatter tests that use it.  What they print is left out. *)

Module ChannelTest.

Section Compare.
Context {T : Type} `{EqDecision T}.

(** [std::find(b.begin(), b.end(), x)]: the position of the first element
    equal to [x], or [b.size()] for [b.end()]. *)
Fixpoint find (b : list T) (x : T) : nat :=
  match b with
  | [] => O
  | y :: rest => if decide (y = x) then O else S (find rest x)
  end.

(** The loop [for (auto& x : a)] of [VectorCompare]. *)
Fixpoint VectorCompare_loop (a b : list T) : bool :=
  match a with
  | [] => true
  | x :: rest =>
      if decide (find b x = length b) then false else VectorCompare_loop rest b
  end.

(** [VectorCompare(a, b)] *)
Definition VectorCompare (a b : list T) : bool :=
  if decide (length a ≠ length b) then false else VectorCompare_loop a b.

(** The loop [for (size_t i = 0; i < a.size(); i++)] of
    [OrderedVectorCompare], with [left] iterations to go from index [i].
    Both indexings are in range, the sizes having been compared. *)
Fixpoint OrderedVectorCompare_loop (a b : list T) (i left : nat) : bool :=
  match left with
  | O => true
  | S left' =>
      match a !! i, b !! i with
      | Some x, Some y =>
          if decide (x ≠ y) then false
          else OrderedVectorCompare_loop a b (S i) left'
      | _, _ => false
      end
  end.

(** [OrderedVectorCompare(a, b)] *)
Definition OrderedVectorCompare (a b : list T) : bool :=
  if decide (length a ≠ length b) then false
  else OrderedVectorCompare_loop a b 0 (length a).

End Compare.

Import Data Channels.

(** The inner loop of [ReadIterator],
    [while (it.HasNext()) result.push_back(it.Next())].  [fuel] bounds the
    number of loop tests; [None] stands for a loop that needs more of them,
    and for a [Next()] that fails. *)
Fixpoint read_while (fuel : nat) (it : Iterator) (chain : BufferChain)
  (result : list string) : option (list string * Iterator) :=
  match fuel with
  | O => None
  | S fuel' =>
      if HasNext it chain then
        '(element, it') ← Next it chain;
        read_while fuel' it' chain (result ++ [element])
      else Some (result, it)
  end.

(** [ReadIterator(it, wait_for_all)], run when no other thread appends to
    the chain or closes it any more.  Modelled from the spec:
    [WaitForAll()] returns once the chain is closed (section 4.3); on a
    chain that stays open it does not return, which is [None] here, as is
    an outer loop that would go round without end. *)
Definition ReadIterator (fuel : nat) (it : Iterator) (chain : BufferChain)
  (wait_for_all : bool) : option (list string) :=
  if wait_for_all && negb (IsClosed chain) then None
  else
    r ← read_while fuel it chain [];
    if negb (IsFinished r.2 chain) && wait_for_all then None else Some r.1.

(** The last statements of a worker of the scatter tests:
    [GetIterator(channel_id)] and [ReadIterator(it, true)]. *)
Definition read_channel (fuel : nat) (channel_id : nat) (m : Manager)
  : option (list string) :=
  it ← GetIterator channel_id m;
  ch ← channels m !! channel_id;
  ReadIterator fuel it (target ch) true.

(** A scatter test with one worker per entry of [workers], each with what
    it emits and its offsets.  Every worker runs up to its [Scatter]; the
    frames are delivered, sender by sender in the order of [senders]; every
    worker reads its channel.  The result lists what the workers read, by
    rank. *)
Definition scatter_test (fuel : nat)
  (workers : list (list emitter_op * list Z)) (senders : list nat)
  : option (list (list string)) :=
  rs ← mapM (λ iw : nat * (list emitter_op * list Z),
               scatter_worker iw.1 (length workers) iw.2.1 iw.2.2)
          (imap pair workers);
  ms ← deliver_all rs.*2 (sent_frames rs.*2 senders);
  mapM (λ rm : (nat * Manager) * Manager, read_channel fuel rm.1.1 rm.2)
    (zip rs ms).

Local Open Scope string_scope.

(** The workers of [Scatter_TwoWorkers_OnlyLocalCopy],
    [Scatter_TwoWorkers_CompleteExchange] and
    [Scatter_ThreeWorkers_PartialExchange]. *)
Definition Scatter_TwoWorkers_OnlyLocalCopy
  : list (list emitter_op * list Z) :=
  [([Emit "foo"; Emit "bar"], [2; 2]);
   ([Emit "hello"; Emit "world"; Emit "."], [0; 3])].

Definition Scatter_TwoWorkers_CompleteExchange
  : list (list emitter_op * list Z) :=
  [([Emit "foo"; Emit "bar"], [0; 2]);
   ([Emit "hello"; Emit "world"; Emit "."], [3; 3])].

Definition Scatter_ThreeWorkers_PartialExchange
  : list (list emitter_op * list Z) :=
  [([Emit "1"; Emit "2"], [2; 2; 2]);
   ([Emit "3"; Emit "4"; Emit "5"; Emit "6"], [0; 2; 4]);
   ([], [0; 0; 0])].

End ChannelTest.

(** * Suffix sorting by prefix doubling

    The record types of [examples/suffix_sorting/prefix_doubling.cpp] with
    their comparison operators, and the functions the algorithms hand to
    [Sort], [PrefixSum] and [FlatWindow], as far as they are closed code.
    [Index] is an unsigned integer type of [index_bits] bits; a value of it
    is a [Z] in [0, 2^index_bits). *)

Module SuffixSorting.

(** [Index(x)]: the conversion to [Index]. *)
Definition to_Index (index_bits x : Z) : Z := x mod 2 ^ index_bits.

Record IndexRank := mkIndexRank { ir_index : Z; ir_rank : Z }.

Record IndexRankRank := mkIndexRankRank {
  irr_index : Z; irr_rank1 : Z; irr_rank2 : Z
}.

Record Index3Rank := mkIndex3Rank {
  i3_index : Z; i3_rank1 : Z; i3_rank2 : Z; i3_rank3 : Z
}.

Record IndexKMer := mkIndexKMer { km_index : Z; km_chars : Z }.

(** [IndexRankRank::operator ==] *)
Definition IndexRankRank_eq (a b : IndexRankRank) : bool :=
  (irr_rank1 a =? irr_rank1 b) && (irr_rank2 a =? irr_rank2 b).

(** [IndexRankRank::operator <] *)
Definition IndexRankRank_lt (a b : IndexRankRank) : bool :=
  (irr_rank1 a <? irr_rank1 b)
  || ((irr_rank1 a =? irr_rank1 b)
      && ((irr_rank2 a <? irr_rank2 b)
          || ((irr_rank2 a =? irr_rank2 b) && (irr_index a >? irr_index b)))).

(** [IndexKMer::operator ==] and [IndexKMer::operator <] *)
Definition IndexKMer_eq (a b : IndexKMer) : bool := km_chars a =? km_chars b.
Definition IndexKMer_lt (a b : IndexKMer) : bool := km_chars a <? km_chars b.

Section Index.
Context (index_bits : Z).

(** The comparison all three [Sort] calls on indices use, on the two
    [index] fields:
    [mod_mask = (Index(1) << iteration) - 1; div_mask = ~mod_mask]. *)
Definition mod_mask (iteration : Z) : Z :=
  to_Index index_bits (to_Index index_bits (Z.shiftl 1 iteration) - 1).

Definition div_mask (iteration : Z) : Z :=
  to_Index index_bits (Z.lnot (mod_mask iteration)).

Definition index_less (iteration a b : Z) : bool :=
  if Z.land a (mod_mask iteration) =? Z.land b (mod_mask iteration)
  then Z.land a (div_mask iteration) <? Z.land b (div_mask iteration)
  else Z.land a (mod_mask iteration) <? Z.land b (mod_mask iteration).

(** The functions given to [PrefixSum]: the maximum of the ranks, the sum of
    the ranks (in [Index] arithmetic), and the maxima of two ranks. *)
Definition max_rank (a b : IndexRank) : IndexRank :=
  mkIndexRank (ir_index b) (Z.max (ir_rank a) (ir_rank b)).

Definition sum_rank (a b : IndexRank) : IndexRank :=
  mkIndexRank (ir_index b) (to_Index index_bits (ir_rank a + ir_rank b)).

Definition max_rank3 (a b : Index3Rank) : Index3Rank :=
  mkIndex3Rank (i3_index b) (Z.max (i3_rank1 a) (i3_rank1 b))
    (Z.max (i3_rank2 a) (i3_rank2 b)) (i3_rank3 b).

End Index.

(** A character of [char_bits] bits, as the number it converts to. *)
Definition in_range (char_bits c : Z) : Prop := 0 <= c < 2 ^ char_bits.

(** [x << n] on a [size_t]. *)
Definition shl64 (x n : Z) : Z := Z.shiftl x n mod SIZE_MODULUS.

Section KMer.
Context (char_bits index_bits : Z) (k_fitting : nat).

(** The packing loop of [PrefixDoubling]:
    [result = rb[i]; for (j = i + 1; j < k_fitting; ++j)
       result = (result << input_bit_size) | rb[j];]
    [rb] is the window, [char_bits] is [input_bit_size]. *)
Definition pack_from (rb : list Z) (i : nat) : Z :=
  foldl (λ result j, Z.lor (shl64 result char_bits) (rb !!! j))
    (rb !!! i) (seq (S i) (k_fitting - S i)).

(** The function [PrefixDoubling] gives to [FlatWindow], as the list of the
    [IndexKMer] it emits for the window [rb] at position [index]. *)
Definition k_mers (input_size index : Z) (rb : list Z) : list IndexKMer :=
  mkIndexKMer (to_Index index_bits index) (to_Index index_bits (pack_from rb 0))
  :: (if index =? (input_size - Z.of_nat k_fitting) mod SIZE_MODULUS
      then
        (λ i, mkIndexKMer
                (to_Index index_bits (size_t_add index (Z.of_nat i)))
                (to_Index index_bits
                   (shl64 (pack_from rb i) (Z.of_nat i * char_bits))))
        <$> seq 1 (k_fitting - 1)
      else []).

(** The number whose digits to the base 2^char_bits are [chars], most
    significant first. *)
Fixpoint digits_value (chars : list Z) : Z :=
  match chars with
  | [] => 0
  | c :: rest =>
      c * 2 ^ (char_bits * Z.of_nat (length rest)) + digits_value rest
  end.

End KMer.

(** The lexicographic order on two strings of the same length. *)
Fixpoint lex_less (u v : list Z) : bool :=
  match u, v with
  | c :: u', d :: v' => (c <? d) || ((c =? d) && lex_less u' v')
  | _, _ => false
  end.

End SuffixSorting.

(** * Properties of BufferChain *)

Module BufferChainFacts.
Import Data.

Lemma size_t_add_mod a b : size_t_add (a mod SIZE_MODULUS) b = size_t_add a b.
Proof. unfold size_t_add. apply Zplus_mod_idemp_l. Qed.

Lemma size_t_add_small a b :
  0 <= a + b < SIZE_MODULUS → size_t_add a b = a + b.
Proof. intros H. unfold size_t_add. by apply Z.mod_small. Qed.

Lemma size_snoc l e cl n : _size (mkChain (l ++ [e]) cl n) = element_count e.
Proof. unfold _size, back. simpl. by rewrite last_snoc. Qed.

(** [Append(BinaryBufferBuilder&)] always returns, and this is what it
    leaves behind. *)
Lemma Append_eq c b : Append c b = Some (appended c b, Detach b).
Proof. reflexivity. Qed.

Lemma size_Append c b r :
  Append c b = Some r → size r.1 = size_t_add (size c) (elements b).
Proof. rewrite Append_eq. intros [= <-]. apply size_snoc. Qed.

Lemma append_builders_cons c b bs :
  append_builders c (b :: bs) = append_builders (appended c b) bs.
Proof. reflexivity. Qed.

Lemma size_appended c b : size (appended c b) = size_t_add (size c) (elements b).
Proof. apply size_snoc. Qed.

Lemma append_builders_size bs : ∀ c,
  ∃ c', append_builders c bs = Some c' ∧
        size c' mod SIZE_MODULUS =
        (size c + sum_list_Z (elements <$> bs)) mod SIZE_MODULUS.
Proof.
  induction bs as [|b bs IH]; intros c.
  - exists c. split; [done|]. simpl. by rewrite Z.add_0_r.
  - rewrite append_builders_cons.
    destruct (IH (appended c b)) as (c' & Hrun & Hsz).
    exists c'. split; [done|]. rewrite Hsz, size_appended.
    rewrite fmap_cons. cbn [sum_list_Z foldr].
    unfold size_t_add. rewrite Zplus_mod_idemp_l.
    fold (sum_list_Z (elements <$> bs)). by rewrite Z.add_assoc.
Qed.

Lemma append_builders_in_range bs : ∀ c,
  is_size_t (size c) →
  ∃ c', append_builders c bs = Some c' ∧ is_size_t (size c').
Proof.
  induction bs as [|b bs IH]; intros c Hc.
  - by exists c.
  - rewrite append_builders_cons. apply IH.
    rewrite size_appended. unfold is_size_t, size_t_add.
    apply Z.mod_pos_bound. by compute.
Qed.

Lemma sum_list_Z_nonneg l : Forall (λ k, 0 <= k) l → 0 <= sum_list_Z l.
Proof. induction 1; simpl; lia. Qed.

Lemma append_builders_elements bs : ∀ c,
  ∃ c', append_builders c bs = Some c' ∧
        length (elements_ c') = (length (elements_ c) + length bs)%nat ∧
        (∀ j e, elements_ c !! j = Some e → elements_ c' !! j = Some e) ∧
        ∀ i b, bs !! i = Some b →
          elements_ c' !! (length (elements_ c) + i)%nat =
          Some (mkElement (BinaryBuffer_of b)
                  ((size c + sum_list_Z (elements <$> take (S i) bs))
                   mod SIZE_MODULUS) 0).
Proof.
  induction bs as [|b bs IH]; intros c.
  - exists c. split; [done|]. split; [simpl; lia|]. split; [done|].
    intros i b Hi. by rewrite lookup_nil in Hi.
  - rewrite append_builders_cons.
    destruct (IH (appended c b)) as (c' & Hrun & Hlen & Hkeep & Hnew).
    assert (length (elements_ (appended c b)) = S (length (elements_ c)))
      as Hlen1 by (simpl; rewrite length_app; simpl; lia).
    exists c'. split; [done|]. split; [rewrite Hlen, Hlen1; simpl; lia|].
    split.
    { intros j e Hj. apply Hkeep. simpl. by apply lookup_app_l_Some. }
    intros [|i] b' Hi.
    + injection Hi as <-. rewrite Nat.add_0_r. apply Hkeep. simpl.
      rewrite lookup_app_r by lia. rewrite Nat.sub_diag. simpl.
      unfold size_t_add, size. by rewrite Z.add_0_r.
    + simpl in Hi. apply Hnew in Hi. rewrite Hlen1 in Hi.
      replace (length (elements_ c) + S i)%nat
        with (S (length (elements_ c)) + i)%nat by lia.
      rewrite Hi. do 2 f_equal. rewrite size_appended.
      unfold size_t_add. rewrite Zplus_mod_idemp_l.
      rewrite firstn_cons, fmap_cons. cbn [sum_list_Z foldr].
      fold (sum_list_Z (elements <$> take (S i) bs)).
      by rewrite Z.add_assoc.
Qed.

(** C1, as the specification states it, fails: [size()] is a [size_t], and
    the addition in [Append] wraps around.  Two builders of 2^63 elements
    each, appended to the empty chain, leave [size()] at 0, where the sum of
    the element counts is 2^64. *)
Lemma C1_size_wraps_around :
  ∃ c0 c,
    BufferChain_new false = Some c0 ∧
    append_builders c0 [mkBuilder [x01] (2 ^ 63); mkBuilder [x02] (2 ^ 63)]
      = Some c ∧
    sum_list_Z
      (elements <$> [mkBuilder [x01] (2 ^ 63); mkBuilder [x02] (2 ^ 63)])
      = 2 ^ 64 ∧
    counts c = [2 ^ 63; 0] ∧
    size c = 0 ∧
    size c ≠
      sum_list_Z
        (elements <$> [mkBuilder [x01] (2 ^ 63); mkBuilder [x02] (2 ^ 63)]).
Proof.
  eexists _, _. split; [reflexivity|]. split; [reflexivity|].
  by vm_compute.
Qed.

(** C1, amended.  Every [Append(BinaryBufferBuilder&)] returns, detaches the
    builder and adds exactly one element at the back of the chain, behind
    the elements it held: the element views the builder's buffer, has offset
    0 and, as [element_count], the [size()] from before the call plus the
    builder's element count, as a [size_t] (modulo 2^64).  A run of such
    calls on a new chain therefore always returns, leaves one element per
    builder, in call order, the i-th with the sum of the first i element
    counts modulo 2^64, and [size()] is the sum of all element counts modulo
    2^64: the sum itself whenever it fits into a [size_t]. *)
Theorem C1_size_is_sum_modulo (libcpp : bool) (bs : list BinaryBufferBuilder) :
  (∀ c b, ∃ c',
     Append c b = Some (c', Detach b) ∧
     elements_ c' =
       elements_ c ++
       [mkElement (BinaryBuffer_of b) (size_t_add (size c) (elements b)) 0] ∧
     closed_ c' = closed_ c ∧
     size c' = size_t_add (size c) (elements b)) ∧
  ∃ c0 c,
    BufferChain_new libcpp = Some c0 ∧
    elements_ c0 = [] ∧
    append_builders c0 bs = Some c ∧
    length (elements_ c) = length bs ∧
    (∀ i b, bs !! i = Some b →
       elements_ c !! i =
       Some (mkElement (BinaryBuffer_of b)
               (sum_list_Z (elements <$> take (S i) bs) mod SIZE_MODULUS) 0)) ∧
    size c = sum_list_Z (elements <$> bs) mod SIZE_MODULUS ∧
    (Forall (λ b, 0 <= elements b) bs →
     sum_list_Z (elements <$> bs) < SIZE_MODULUS →
     size c = sum_list_Z (elements <$> bs)).
Proof.
  split.
  { intros c b. exists (appended c b). split; [apply Append_eq|].
    split; [done|]. split; [done|]. apply size_appended. }
  assert (Hnew : BufferChain_new libcpp = Some (mkChain [] false 0))
    by (by destruct libcpp).
  exists (mkChain [] false 0).
  destruct (append_builders_size bs (mkChain [] false 0)) as (c & Hrun & Hsz).
  destruct (append_builders_in_range bs (mkChain [] false 0))
    as (c2 & Hrun2 & Hrange); [by compute|].
  rewrite Hrun in Hrun2. injection Hrun2 as <-.
  destruct (append_builders_elements bs (mkChain [] false 0))
    as (c3 & Hrun3 & Hlen & _ & Hels).
  rewrite Hrun in Hrun3. injection Hrun3 as <-.
  exists c. split; [done|]. split; [done|]. split; [done|].
  split; [exact Hlen|]. split.
  { intros i b Hi. apply Hels in Hi. simpl in Hi.
    change (size (mkChain [] false 0)) with 0 in Hi.
    by rewrite Z.add_0_l in Hi. }
  change (size (mkChain [] false 0)) with 0 in Hsz. rewrite Z.add_0_l in Hsz.
  rewrite (Z.mod_small (size c)) in Hsz by exact Hrange.
  split; [done|]. intros Hpos Hfit. rewrite Hsz. apply Z.mod_small.
  split; [|done]. apply sum_list_Z_nonneg.
  apply Forall_fmap. exact Hpos.
Qed.

Lemma C1_size_is_sum_modulo_witness :
  ∃ c0 c,
    BufferChain_new true = Some c0 ∧
    append_builders c0 [mkBuilder [x01; x02] 2; mkBuilder [x03] 1; mkBuilder [] 0]
      = Some c ∧
    elements_ c !! 1%nat = Some (mkElement (mkBinaryBuffer [x03]) 3 0) ∧
    size c = 3.
Proof.
  destruct (C1_size_is_sum_modulo true
              [mkBuilder [x01; x02] 2; mkBuilder [x03] 1; mkBuilder [] 0])
    as (_ & c0 & c & Hnew & _ & Hrun & _ & Hels & _ & Hsum).
  exists c0, c. split; [exact Hnew|]. split; [exact Hrun|]. split.
  - apply (Hels 1%nat (mkBuilder [x03] 1)). reflexivity.
  - apply Hsum; [repeat constructor; simpl; lia|by vm_compute].
Defined.

(** ** Close and Append *)

(** C3, as the specification states it, fails: on a closed chain
    [Append(BinaryBufferBuilder&)] still appends. *)
Lemma C3_Append_after_Close_appends :
  ¬ (∀ c b r,
       IsClosed c = true → Append c b = Some r → elements_ r.1 = elements_ c).
Proof.
  intros H.
  specialize (H (Close (mkChain [] false 0)) (mkBuilder [x01] 1) _
                eq_refl (Append_eq _ _)).
  discriminate H.
Qed.

(** C3, amended.  [Close()] sets the flag and no [Append] ever clears it, but
    neither overload of [Append] looks at the flag: called on a closed chain
    it returns normally, adds exactly one element at the back and leaves the
    chain closed. *)
Theorem C3_Append_ignores_closed (c : BufferChain) (b : BinaryBufferBuilder)
  (e : BufferChainElement) :
  IsClosed c = true →
  (∃ c', Append c b = Some (c', Detach b) ∧
         elements_ c' =
           elements_ c ++
             [mkElement (BinaryBuffer_of b) (size_t_add (size c) (elements b)) 0] ∧
         IsClosed c' = true) ∧
  elements_ (AppendElement c e) = elements_ c ++ [e] ∧
  IsClosed (AppendElement c e) = true.
Proof.
  intros Hc. split; [|by split].
  exists (appended c b). by rewrite Append_eq.
Qed.

Lemma C3_Append_ignores_closed_witness :
  (∃ c', Append (Close (mkChain [] false 0)) (mkBuilder [x01] 1) =
           Some (c', Detach (mkBuilder [x01] 1)) ∧
         elements_ c' = [mkElement (mkBinaryBuffer [x01]) 1 0] ∧
         IsClosed c' = true) ∧
  elements_ (AppendElement (Close (mkChain [] false 0))
               (mkElement (mkBinaryBuffer [x02]) 7 0)) =
    [mkElement (mkBinaryBuffer [x02]) 7 0] ∧
  IsClosed (AppendElement (Close (mkChain [] false 0))
              (mkElement (mkBinaryBuffer [x02]) 7 0)) = true.
Proof.
  exact (C3_Append_ignores_closed (Close (mkChain [] false 0))
           (mkBuilder [x01] 1) (mkElement (mkBinaryBuffer [x02]) 7 0) eq_refl).
Defined.

(** C5.  After one [Close()] the chain is closed, and any number of further
    [Close()] calls leave the flag and the element sequence as the first one
    left them (each call still signals the waiters once more). *)
Theorem C5_Close_idempotent (c : BufferChain) (n : nat) :
  IsClosed (Close c) = true ∧
  elements_ (Close c) = elements_ c ∧
  IsClosed (Nat.iter n Close (Close c)) = IsClosed (Close c) ∧
  elements_ (Nat.iter n Close (Close c)) = elements_ (Close c).
Proof.
  split; [done|]. split; [done|].
  induction n as [|n [IHc IHe]]; [done|].
  rewrite Nat.iter_succ. split; [done|]. simpl. exact IHe.
Qed.

(** C6.  [size()] is 0 on a chain without elements, and the [element_count]
    of the last element otherwise. *)
Theorem C6_size_is_last_count (c : BufferChain) :
  (elements_ c = [] ∧ size c = 0) ∨
  (∃ front e, elements_ c = front ++ [e] ∧ size c = element_count e).
Proof.
  destruct c as [l cl n]. simpl.
  destruct l as [|e l _] using rev_ind; [by left|].
  right. exists l, e. split; [done|]. apply size_snoc.
Qed.

(** C9.  The constructor returns (its dummy element passes the assertion),
    and the new chain has no elements, [size()] 0, [Begin() == End()], and is
    not closed; with and without the libc++ workaround. *)
Theorem C9_new_chain_empty_open (libcpp : bool) :
  ∃ c, BufferChain_new libcpp = Some c ∧
       elements_ c = [] ∧ size c = 0 ∧ Begin c = End c ∧ IsClosed c = false.
Proof. exists (mkChain [] false 0). by destruct libcpp. Qed.

(** ** Monotone counts *)

Lemma TlRel_size c x : _size c <= x → TlRel Z.le x (counts c).
Proof.
  destruct c as [l cl n]. unfold counts. simpl.
  destruct l as [|e l _] using rev_ind; intros Hx; [constructor|].
  rewrite size_snoc in Hx. rewrite fmap_app. by constructor.
Qed.

Lemma run_op_in_step c op :
  0 <= _size c → Sorted Z.le (counts c) → op_in_step c op →
  ∃ c', run_op c op = Some c' ∧ 0 <= _size c' ∧ Sorted Z.le (counts c').
Proof.
  intros Hsz Hsorted Hstep. destruct op as [b|b count offset].
  - destruct Hstep as [Hk Hfit]. exists (appended c b).
    split; [done|].
    pose proof (size_appended c b) as Hnew. unfold size in Hnew.
    rewrite size_t_add_small in Hnew by lia.
    split; [lia|].
    unfold counts, appended. simpl. rewrite fmap_app. simpl.
    apply Sorted_snoc; [done|].
    rewrite size_t_add_small by lia. apply TlRel_size. lia.
  - destruct Hstep as [Hge ->].
    exists (AppendElement c (mkElement b count 0)). split; [done|].
    unfold AppendElement, push_back. rewrite size_snoc. simpl.
    split; [lia|].
    unfold counts. simpl. rewrite fmap_app. simpl.
    apply Sorted_snoc; [done|]. by apply TlRel_size.
Qed.

Lemma run_ops_in_step ops : ∀ c,
  0 <= _size c → Sorted Z.le (counts c) → ops_in_step c ops →
  ∃ c', run_ops c ops = Some c' ∧ Sorted Z.le (counts c').
Proof.
  induction ops as [|op ops IH]; intros c Hsz Hsorted Hsteps.
  - by exists c.
  - destruct Hsteps as [Hstep Hrest].
    destruct (run_op_in_step c op Hsz Hsorted Hstep) as (c1 & Hrun & Hsz1 & Hs1).
    cbn [run_ops]. rewrite Hrun in Hrest |- *. simpl. by apply IH.
Qed.

(** C4, as the specification states it, fails:
    [Append(BufferChainElement&&)] stores the element with whatever count it
    carries, so two such appends from the empty chain give the counts 5, 3. *)
Lemma C4_counts_can_decrease :
  ∃ c, run_ops (mkChain [] false 0)
         [AppendConstructed (mkBinaryBuffer [x01]) 5 0;
          AppendConstructed (mkBinaryBuffer [x02]) 3 0] = Some c ∧
       counts c = [5; 3] ∧
       ¬ Sorted Z.le (counts c).
Proof.
  eexists. split; [reflexivity|]. split; [reflexivity|].
  intros H. apply Sorted_inv in H as [_ H]. apply HdRel_inv in H.
  by compute in H.
Qed.

(** C4, amended.  From the empty chain, a run of appends in which every
    builder's element count fits into the rest of the [size_t] range and
    every element given to [Append(BufferChainElement&&)] carries a count not
    below the current [size()] always returns, and the [element_count]
    values of the resulting chain are non-decreasing front to back. *)
Theorem C4_counts_nondecreasing (libcpp : bool) (ops : list append_op)
  (c0 : BufferChain) :
  BufferChain_new libcpp = Some c0 →
  ops_in_step c0 ops →
  ∃ c, run_ops c0 ops = Some c ∧ Sorted Z.le (counts c).
Proof.
  intros Hnew Hsteps.
  assert (c0 = mkChain [] false 0) as -> by (destruct libcpp; by injection Hnew).
  apply run_ops_in_step; [done|constructor|done].
Qed.

Lemma C4_counts_nondecreasing_witness :
  ∃ c, run_ops (mkChain [] false 0)
         [AppendBuilder (mkBuilder [x01; x02] 2);
          AppendConstructed (mkBinaryBuffer [x03]) 2 0;
          AppendConstructed (mkBinaryBuffer [x04]) 6 0;
          AppendBuilder (mkBuilder [x05] 1)] = Some c ∧
       Sorted Z.le (counts c).
Proof.
  apply (C4_counts_nondecreasing false); [reflexivity|].
  vm_compute. repeat split; (reflexivity || discriminate).
Defined.

End BufferChainFacts.

(** * Properties of OrderedBufferChain *)

Module OrderedFacts.
Import Data.
Import BufferChainFacts.

#[local] Instance key_le_total : Total key_le.
Proof. intros x y. unfold key_le. lia. Qed.

#[local] Instance key_le_trans : Transitive key_le.
Proof. intros x y z. unfold key_le. lia. Qed.

(** *** The map traversal *)

Lemma in_order_perm m : in_order m ≡ₚ map_to_list m.
Proof. apply merge_sort_Permutation. Qed.

Lemma in_order_sorted m : StronglySorted key_le (in_order m).
Proof. apply Sorted_StronglySorted; [apply _|]. apply Sorted_merge_sort, _. Qed.

Lemma in_order_NoDup m : NoDup (in_order m).*1.
Proof. rewrite in_order_perm. apply NoDup_fst_map_to_list. Qed.

Lemma in_order_lookup m k v : (k, v) ∈ in_order m ↔ m !! k = Some v.
Proof. rewrite in_order_perm. apply elem_of_map_to_list. Qed.

Lemma flat_cons it its : flat (it :: its) = (pair it.1 <$> it.2) ++ flat its.
Proof. reflexivity. Qed.

Lemma of_rank_app r l1 l2 : of_rank r (l1 ++ l2) = of_rank r l1 ++ of_rank r l2.
Proof. apply filter_app. Qed.

Lemma of_rank_tagged_eq r v : of_rank r (pair r <$> v) = pair r <$> v.
Proof.
  unfold of_rank. induction v as [|e v IH]; [done|].
  rewrite fmap_cons, filter_cons_True by done. by rewrite IH.
Qed.

Lemma of_rank_tagged_ne r k v : k ≠ r → of_rank r (pair k <$> v) = [].
Proof.
  intros Hne. unfold of_rank. induction v as [|e v IH]; [done|].
  rewrite fmap_cons, filter_cons_False by done. exact IH.
Qed.

Lemma of_rank_flat_absent r its : r ∉ its.*1 → of_rank r (flat its) = [].
Proof.
  induction its as [|[k v] its IH]; intros Hnotin; [done|].
  rewrite fmap_cons, not_elem_of_cons in Hnotin. destruct Hnotin as [Hne Hnotin].
  rewrite flat_cons, of_rank_app. simpl.
  rewrite of_rank_tagged_ne by done. by rewrite IH.
Qed.

Lemma of_rank_flat_present r v its :
  NoDup its.*1 → (r, v) ∈ its → of_rank r (flat its) = pair r <$> v.
Proof.
  induction its as [|[k w] its IH]; intros Hnd Hin; [by apply elem_of_nil in Hin|].
  rewrite fmap_cons in Hnd. apply NoDup_cons in Hnd as [Hk Hnd].
  rewrite flat_cons, of_rank_app. simpl.
  apply elem_of_cons in Hin as [Heq|Hin].
  - injection Heq as <- <-.
    rewrite of_rank_tagged_eq, of_rank_flat_absent by done.
    by rewrite app_nil_r.
  - assert (k ≠ r) as Hne.
    { intros ->. apply Hk. apply list_elem_of_fmap. by exists (r, v). }
    rewrite of_rank_tagged_ne by done. by apply IH.
Qed.

Lemma flat_tags_sorted its :
  StronglySorted key_le its → StronglySorted Z.le (flat its).*1.
Proof.
  induction 1 as [|[k v] its Hs IH Hall]; [constructor|].
  rewrite flat_cons, fmap_app. apply StronglySorted_app_2.
  - intros x1 x2 Hx1 Hx2. simpl in Hx1.
    apply list_elem_of_fmap in Hx1 as ([k1 e1] & -> & Hx1).
    apply list_elem_of_fmap in Hx1 as (e & [= -> ->] & _).
    apply list_elem_of_fmap in Hx2 as ([k2 e2] & -> & Hx2).
    unfold flat in Hx2. apply list_elem_of_bind in Hx2 as ([k' v'] & Hx2 & Hit).
    apply list_elem_of_fmap in Hx2 as (e' & [= -> ->] & _).
    rewrite Forall_forall in Hall. apply (Hall _ Hit).
  - simpl. rewrite <-list_fmap_compose.
    clear Hall. induction v as [|e v IHv]; simpl; constructor; [done|].
    apply Forall_fmap, Forall_forall. intros ? _. simpl. lia.
  - exact IH.
Qed.

(** *** Staging *)

Lemma OrderedAppend_eq o r b :
  OrderedAppend o r b =
  Some (mkOrdered
          (<[r := bucket o r ++ [mkElement (BinaryBuffer_of b) (elements b) 0]]>
             (buffers_ o)),
        Detach b).
Proof.
  unfold OrderedAppend, bucket.
  destruct (buffers_ o !! r) as [v|] eqn:Hr; simpl.
  - by rewrite Hr.
  - rewrite lookup_insert_eq. simpl. by rewrite insert_insert_eq.
Qed.

Lemma ordered_appends_cons o r b h :
  ordered_appends o ((r, b) :: h) =
  ordered_appends
    (mkOrdered
       (<[r := bucket o r ++ [mkElement (BinaryBuffer_of b) (elements b) 0]]>
          (buffers_ o))) h.
Proof. cbn [ordered_appends fst snd]. by rewrite OrderedAppend_eq. Qed.

Lemma flat_perm its its' : its ≡ₚ its' → flat its ≡ₚ flat its'.
Proof. intros H. unfold flat. by rewrite H. Qed.

Lemma staged_insert o r e :
  staged (mkOrdered (<[r := bucket o r ++ [e]]> (buffers_ o))) ≡ₚ
  staged o ++ [(r, e)].
Proof.
  unfold staged, bucket. simpl.
  rewrite (flat_perm _ _ (in_order_perm _)).
  rewrite (flat_perm _ _ (in_order_perm (buffers_ o))).
  destruct (buffers_ o !! r) as [v|] eqn:Hr; simpl.
  - rewrite <-insert_delete_eq.
    rewrite (flat_perm _ _ (map_to_list_insert _ _ _ (lookup_delete_eq _ _))).
    rewrite <-(flat_perm _ _ (map_to_list_delete _ _ _ Hr)).
    rewrite !flat_cons. simpl. rewrite fmap_app. simpl.
    rewrite <-!(assoc_L (++)). apply Permutation_app_head, Permutation_app_comm.
  - rewrite (flat_perm _ _ (map_to_list_insert _ _ _ Hr)).
    rewrite flat_cons. simpl. apply Permutation_cons_append.
Qed.

Lemma bucket_insert o r v k :
  bucket (mkOrdered (<[r := v]> (buffers_ o))) k =
  if decide (k = r) then v else bucket o k.
Proof.
  unfold bucket. simpl. case_decide as Hk.
  - subst k. by rewrite lookup_insert_eq.
  - by rewrite lookup_insert_ne.
Qed.

Lemma ordered_appends_spec h : ∀ o,
  ∃ o', ordered_appends o h = Some o' ∧
        staged o' ≡ₚ staged o ++ sent h ∧
        ∀ r, bucket o' r = bucket o r ++ (of_rank r (sent h)).*2.
Proof.
  induction h as [|[r b] h IH]; intros o.
  - exists o. split; [done|]. split; [by rewrite app_nil_r|].
    intros r. by rewrite app_nil_r.
  - rewrite ordered_appends_cons.
    destruct (IH (mkOrdered
      (<[r := bucket o r ++ [mkElement (BinaryBuffer_of b) (elements b) 0]]>
         (buffers_ o)))) as (o' & Hrun & Hperm & Hbucket).
    exists o'. split; [done|]. split.
    + rewrite Hperm, staged_insert. by rewrite <-(assoc_L (++)).
    + intros k. rewrite Hbucket, bucket_insert.
      unfold sent at 2. rewrite fmap_cons. fold (sent h).
      unfold of_rank at 2. simpl. case_decide as Hk.
      * subst k. rewrite filter_cons_True by done.
        rewrite fmap_cons. simpl. by rewrite <-(assoc_L (++)).
      * rewrite filter_cons_False by (simpl; congruence). done.
Qed.

Lemma of_rank_staged o r : of_rank r (staged o) = pair r <$> bucket o r.
Proof.
  unfold staged, bucket.
  destruct (buffers_ o !! r) as [v|] eqn:Hr; simpl.
  - apply of_rank_flat_present; [apply in_order_NoDup|].
    by apply in_order_lookup.
  - apply of_rank_flat_absent. intros Hin.
    apply list_elem_of_fmap in Hin as ([k v] & -> & Hin).
    apply in_order_lookup in Hin. simpl in Hr. congruence.
Qed.

Lemma of_rank_retag r l : pair r <$> (of_rank r l).*2 = of_rank r l.
Proof.
  unfold of_rank. induction l as [|[k e] l IH]; [done|].
  destruct (decide (k = r)) as [->|Hne].
  - rewrite filter_cons_True by done. rewrite !fmap_cons. simpl. by rewrite IH.
  - rewrite filter_cons_False by done. exact IH.
Qed.

Lemma staged_sorted o : Sorted Z.le (staged o).*1.
Proof.
  apply StronglySorted_Sorted, flat_tags_sorted, in_order_sorted.
Qed.

(** *** MoveTo *)

Lemma MoveTo_buffers_eq bufs : ∀ acc t,
  ∃ acc' t',
    MoveTo_buffers bufs (acc, t) = Some (acc', t') ∧
    elements_ t' = elements_ t ++ transcribed acc bufs ∧
    closed_ t' = closed_ t ∧
    ∀ more, transcribed acc (bufs ++ more) =
            transcribed acc bufs ++ transcribed acc' more.
Proof.
  induction bufs as [|e bufs IH]; intros acc t.
  - exists acc, t. split; [done|]. split; [by rewrite app_nil_r|]. by split.
  - destruct (IH (size_t_add acc (element_count e))
                (AppendElement t
                   (mkElement (buffer e) (size_t_add acc (element_count e)) 0)))
      as (acc' & t' & Hrun & Hel & Hcl & Hmore).
    exists acc', t'. split; [exact Hrun|]. split.
    + rewrite Hel. simpl. unfold push_back. by rewrite <-(assoc_L (++)).
    + split; [done|]. intros more. simpl. by rewrite Hmore.
Qed.

Lemma MoveTo_keys_eq its : ∀ acc t,
  ∃ acc' t',
    MoveTo_keys its (acc, t) = Some (acc', t') ∧
    elements_ t' = elements_ t ++ transcribed acc (flat its).*2 ∧
    closed_ t' = closed_ t.
Proof.
  induction its as [|[k v] its IH]; intros acc t.
  - exists acc, t. split; [done|]. split; [by rewrite app_nil_r|done].
  - destruct (MoveTo_buffers_eq v acc t) as (acc1 & t1 & Hrun1 & Hel1 & Hcl1 & Hmore).
    destruct (IH acc1 t1) as (acc' & t' & Hrun & Hel & Hcl).
    exists acc', t'. split.
    { cbn [MoveTo_keys snd]. rewrite Hrun1. exact Hrun. }
    split; [|congruence].
    rewrite Hel, Hel1, flat_cons, fmap_app. simpl.
    rewrite <-list_fmap_compose. simpl. rewrite list_fmap_id, Hmore.
    by rewrite <-(assoc_L (++)).
Qed.

Lemma MoveTo_eq o target :
  ∃ t', MoveTo o target = Some t' ∧
        elements_ t' = elements_ target ++ transcribed 0 (staged o).*2 ∧
        closed_ t' = closed_ target.
Proof.
  destruct (MoveTo_keys_eq (in_order (buffers_ o)) 0 target)
    as (acc' & t' & Hrun & Hel & Hcl).
  exists t'. unfold MoveTo. rewrite Hrun. by simpl.
Qed.

Lemma length_transcribed bufs : ∀ acc, length (transcribed acc bufs) = length bufs.
Proof. induction bufs as [|e bufs IH]; intros acc; simpl; [done|]. by rewrite IH. Qed.

Lemma transcribed_lookup bufs : ∀ acc i e',
  transcribed acc bufs !! i = Some e' →
  ∃ e, bufs !! i = Some e ∧
       buffer e' = buffer e ∧
       offset_of_first e' = 0 ∧
       element_count e' =
         (acc + sum_list_Z (take (S i) (element_count <$> bufs))) mod SIZE_MODULUS.
Proof.
  induction bufs as [|e bufs IH]; intros acc i e' Hi; [done|].
  destruct i as [|i]; simpl in Hi.
  - injection Hi as <-. exists e. simpl. by rewrite Z.add_0_r.
  - apply IH in Hi as (e0 & Hlook & Hbuf & Hoff & Hcount).
    exists e0. split; [done|]. split; [done|]. split; [done|].
    rewrite Hcount. unfold size_t_add. rewrite Zplus_mod_idemp_l.
    rewrite fmap_cons. cbn [take sum_list_Z foldr].
    fold (sum_list_Z (take (S i) (element_count <$> bufs))).
    by rewrite Z.add_assoc.
Qed.

(** C2.  [MoveTo] does not give the transcribed elements the cumulative
    count of the target: it starts its counter at 0 whatever the target
    holds.  On a target of [size()] 5, a staged buffer of 3 elements is
    transcribed with the count 3, so that afterwards [size()] is 3 and the
    counts, front to back, are 5, 3; the cumulative count of the target
    after that element is 8, and 8 is what [Append(BinaryBufferBuilder&)]
    gives the same buffer on the same target. *)
Lemma C2_MoveTo_counts_from_zero :
  ∃ target o t' sibling,
    append_builders (mkChain [] false 0) [mkBuilder [x01] 5] = Some target ∧
    ordered_appends OrderedBufferChain_new [(0, mkBuilder [x02] 3)] = Some o ∧
    MoveTo o target = Some t' ∧
    size target = 5 ∧
    counts t' = [5; 3] ∧
    size t' = 3 ∧
    size_t_add (size target) 3 = 8 ∧
    size t' ≠ 8 ∧
    append_builders target [mkBuilder [x02] 3] = Some sibling ∧
    counts sibling = [5; 8] ∧
    size sibling = 8.
Proof.
  eexists _, _, _, _. split; [reflexivity|]. split; [reflexivity|].
  split; [vm_compute; reflexivity|].
  split; [by vm_compute|]. split; [by vm_compute|]. split; [by vm_compute|].
  split; [by vm_compute|]. split; [by vm_compute|].
  split; [reflexivity|]. by vm_compute.
Qed.

(** Three staged buffers moved to an empty chain: rank 0 first, then the two
    buffers of rank 1 in the order of their appends, counts 3, 5, 9. *)
Example MoveTo_three_buffers :
  (o ← ordered_appends OrderedBufferChain_new
         [(1, mkBuilder [x01] 2); (0, mkBuilder [x02] 3); (1, mkBuilder [x03] 4)];
   t ← MoveTo o (mkChain [] false 0);
   Some (elements_ t)) =
  Some [mkElement (mkBinaryBuffer [x02]) 3 0;
        mkElement (mkBinaryBuffer [x01]) 5 0;
        mkElement (mkBinaryBuffer [x03]) 9 0].
Proof. vm_compute. reflexivity. Qed.

(** ** Offsets *)

Lemma transcribed_offsets bufs : ∀ acc,
  Forall (λ e, offset_of_first e = 0) (transcribed acc bufs).
Proof. induction bufs as [|e bufs IH]; intros acc; simpl; by constructor. Qed.

Lemma run_ops_offsets ops : ∀ c c',
  Forall (λ e, offset_of_first e = 0) (elements_ c) →
  run_ops c ops = Some c' →
  Forall (λ e, offset_of_first e = 0) (elements_ c').
Proof.
  induction ops as [|op ops IH]; intros c c' Hc Hrun.
  - injection Hrun as <-. exact Hc.
  - cbn [run_ops] in Hrun. destruct (run_op c op) as [c1|] eqn:Hop; [|done].
    apply (IH c1); [|exact Hrun].
    destruct op as [b|b count offset].
    + injection Hop as <-. simpl. apply Forall_app. split; [done|].
      by repeat constructor.
    + unfold run_op, BufferChainElement_new in Hop.
      destruct (decide (offset = 0)) as [->|]; [|done].
      injection Hop as <-. simpl. apply Forall_app. split; [done|].
      by repeat constructor.
Qed.

(** C7.  The constructor fails on every non-zero offset, and an element it
    returns has offset 0.  [BufferChain::Append] and
    [OrderedBufferChain::Append] construct their element with offset 0, so
    they always return, as does [MoveTo].  Hence every element of a chain
    built from a new chain by the two [Append] overloads and by [MoveTo], and
    every staged element, has [offset_of_first] 0. *)
Theorem C7_offset_is_zero :
  (∀ b count offset,
     offset ≠ 0 → BufferChainElement_new b count offset = None) ∧
  (∀ b count offset e,
     BufferChainElement_new b count offset = Some e → offset_of_first e = 0) ∧
  (∀ c b, ∃ c' e,
     Append c b = Some (c', Detach b) ∧
     elements_ c' = elements_ c ++ [e] ∧ offset_of_first e = 0) ∧
  (∀ o rank b, ∃ o' e,
     OrderedAppend o rank b = Some (o', Detach b) ∧
     bucket o' rank = bucket o rank ++ [e] ∧ offset_of_first e = 0) ∧
  (∀ h, ∃ o,
     ordered_appends OrderedBufferChain_new h = Some o ∧
     Forall (λ re, offset_of_first re.2 = 0) (staged o)) ∧
  (∀ libcpp ops o, ∃ c0,
     BufferChain_new libcpp = Some c0 ∧
     ∀ c, run_ops c0 ops = Some c →
       Forall (λ e, offset_of_first e = 0) (elements_ c) ∧
       ∃ c', MoveTo o c = Some c' ∧
             Forall (λ e, offset_of_first e = 0) (elements_ c')).
Proof.
  split.
  { intros b count offset Hne. unfold BufferChainElement_new.
    by destruct (decide (offset = 0)). }
  split.
  { intros b count offset e. unfold BufferChainElement_new.
    destruct (decide (offset = 0)) as [->|]; [|done]. by intros [= <-]. }
  split.
  { intros c b. eexists _, _. rewrite Append_eq. by split. }
  split.
  { intros o rank b. eexists _, _. rewrite OrderedAppend_eq.
    split; [done|]. rewrite bucket_insert. by rewrite decide_True. }
  split.
  { intros h.
    destruct (ordered_appends_spec h OrderedBufferChain_new)
      as (o & Hrun & Hperm & _).
    exists o. split; [done|]. rewrite Hperm. simpl.
    unfold sent. apply Forall_fmap, Forall_forall. by intros [r b] _. }
  intros libcpp ops o. exists (mkChain [] false 0).
  split; [by destruct libcpp|]. intros c Hrun.
  assert (Forall (λ e, offset_of_first e = 0) (elements_ c)) as Hc.
  { apply (run_ops_offsets ops (mkChain [] false 0)); [constructor|done]. }
  split; [done|].
  destruct (MoveTo_eq o c) as (c' & Hmove & Hel & _).
  exists c'. split; [done|]. rewrite Hel. apply Forall_app.
  split; [done|]. apply transcribed_offsets.
Qed.

Lemma C7_offset_is_zero_witness :
  BufferChainElement_new (mkBinaryBuffer [x01]) 1 8 = None ∧
  offset_of_first (mkElement (mkBinaryBuffer [x01]) 1 0) = 0.
Proof.
  split.
  - apply (proj1 C7_offset_is_zero). discriminate.
  - apply (proj1 (proj2 C7_offset_is_zero) (mkBinaryBuffer [x01]) 1 0).
    reflexivity.
Defined.

End OrderedFacts.

(** * The scatter scenario *)

Module ChannelsFacts.
Import Data Channels ChannelTest.

(** The codec is a round trip on every string shorter than 2^32 bytes. *)
Lemma Z_of_byte_of_Z z : Z_of_byte (byte_of_Z z) = z mod 256.
Proof.
  unfold Z_of_byte, byte_of_Z.
  assert (0 <= z mod 256 < 256) as Hr by (apply Z.mod_pos_bound; lia).
  destruct (Byte.of_N (Z.to_N (z mod 256))) as [b|] eqn:Hb; simpl.
  - apply Byte.to_of_N in Hb. rewrite Hb. lia.
  - apply Byte.of_N_None_iff in Hb. lia.
Qed.

Lemma read_u32_le_u32_le n rest :
  0 <= n < 2 ^ 32 → read_u32_le (u32_le n ++ rest) = Some (n, rest).
Proof.
  intros Hn. unfold u32_le. simpl. rewrite !Z_of_byte_of_Z.
  do 2 f_equal. change (2 ^ 32) with 4294967296 in Hn.
  Z.to_euclidean_division_equations. lia.
Qed.

Lemma length_list_byte_of_string x :
  length (list_byte_of_string x) = String.length x.
Proof.
  unfold list_byte_of_string. rewrite length_map.
  induction x as [|a x IH]; simpl; [done|]. by rewrite IH.
Qed.

Lemma decode_encode_string x rest :
  Z.of_nat (String.length x) < 2 ^ 32 →
  decode_string (encode_string x ++ rest) = Some (x, rest).
Proof.
  intros Hlen. unfold decode_string, encode_string.
  rewrite <-(assoc_L (++)), read_u32_le_u32_le by lia. simpl.
  rewrite Nat2Z.id, <-length_list_byte_of_string.
  rewrite decide_True by (rewrite length_app; lia).
  rewrite take_app_length, drop_app_length.
  by rewrite string_of_list_byte_of_string.
Qed.

(** ** Records and blocks *)

Lemma length_encode_string x :
  length (encode_string x) = (4 + String.length x)%nat.
Proof.
  unfold encode_string. by rewrite length_app, length_list_byte_of_string.
Qed.

Lemma encode_records_cons x xs :
  encode_records (x :: xs) = encode_string x ++ encode_records xs.
Proof. reflexivity. Qed.

Lemma encode_records_app xs ys :
  encode_records (xs ++ ys) = encode_records xs ++ encode_records ys.
Proof. unfold encode_records. apply bind_app. Qed.

Lemma encode_records_nil g : encode_records g = [] → g = [].
Proof.
  destruct g as [|x g]; [done|]. rewrite encode_records_cons.
  intros H. apply (f_equal length) in H.
  rewrite length_app, length_encode_string in H. simpl in H. lia.
Qed.

Lemma split_records_S k bs x rest front back :
  decode_string bs = Some (x, rest) →
  split_records k rest = Some (front, back) →
  split_records (S k) bs =
  Some (take (length bs - length rest) bs ++ front, back).
Proof. intros H1 H2. cbn [split_records]. rewrite H1. simpl. by rewrite H2. Qed.

Lemma split_records_encode n : ∀ xs tail,
  Forall short xs → (n ≤ length xs)%nat →
  split_records n (encode_records xs ++ tail) =
  Some (encode_records (take n xs), encode_records (drop n xs) ++ tail).
Proof.
  induction n as [|n IH]; intros xs tail Hshort Hn.
  - by rewrite take_0, drop_0.
  - destruct xs as [|x xs]; [simpl in Hn; lia|].
    apply Forall_cons in Hshort as [Hx Hxs]. simpl in Hn.
    rewrite encode_records_cons, <-(assoc_L (++)).
    rewrite (split_records_S n _ x (encode_records xs ++ tail)
               (encode_records (take n xs))
               (encode_records (drop n xs) ++ tail)).
    + rewrite firstn_cons, skipn_cons, encode_records_cons.
      rewrite !length_app.
      replace (length (encode_string x) +
               (length (encode_records xs) + length tail) -
               (length (encode_records xs) + length tail))%nat
        with (length (encode_string x)) by lia.
      by rewrite take_app_length.
    + by apply decode_encode_string.
    + apply IH; [done|lia].
Qed.

Lemma slice_records_encode skip count xs :
  Forall short xs → (skip + count ≤ length xs)%nat →
  slice_records skip count (encode_records xs) =
  Some (encode_records (take count (drop skip xs))).
Proof.
  intros Hshort Hlen. unfold slice_records.
  rewrite <-(app_nil_r (encode_records xs)).
  rewrite split_records_encode by (done || lia). cbn [mbind option_bind].
  rewrite split_records_encode.
  - done.
  - by apply Forall_drop.
  - rewrite length_drop. lia.
Qed.

Lemma range_records_app prev g rest lo hi :
  range_records prev (g ++ rest) lo hi =
  range_records prev g lo hi ++ range_records (prev + Z.of_nat (length g)) rest lo hi.
Proof.
  unfold range_records. rewrite drop_app, take_app, length_drop.
  f_equal. f_equal; [lia|]. f_equal. lia.
Qed.

Lemma covering_cons prev e rest lo hi :
  covering prev (e :: rest) lo hi =
  blocks ← covering (element_count e) rest lo hi;
  if decide (Z.max lo prev < Z.min hi (element_count e)) then
    if decide (Z.max lo prev = prev ∧ Z.min hi (element_count e) = element_count e)
    then Some ((buffer e, Z.min hi (element_count e) - Z.max lo prev) :: blocks)
    else
      sliced ← slice_records (Z.to_nat (Z.max lo prev - prev))
                  (Z.to_nat (Z.min hi (element_count e) - Z.max lo prev))
                  (bytes (buffer e));
      Some ((mkBinaryBuffer sliced, Z.min hi (element_count e) - Z.max lo prev)
            :: blocks)
  else Some blocks.
Proof. reflexivity. Qed.

Lemma covering_blocks_of gs : ∀ prev lo hi,
  Forall short (concat gs) →
  ∃ bl gs',
    covering prev (blocks_of prev gs) lo hi = Some bl ∧
    Forall2 block_part bl gs' ∧
    concat gs' = range_records prev (concat gs) lo hi.
Proof.
  induction gs as [|g gs IH]; intros prev lo hi Hshort.
  - exists [], []. split; [done|]. split; [constructor|].
    cbn [concat]. unfold range_records. by rewrite drop_nil, take_nil.
  - rewrite concat_cons in Hshort. apply Forall_app in Hshort as [Hg Hgs].
    destruct (IH (prev + Z.of_nat (length g)) lo hi Hgs)
      as (bl & gs' & Hcov & Hparts & Hcat).
    cbn [blocks_of]. rewrite covering_cons. cbn [element_count buffer bytes].
    rewrite Hcov. cbn [mbind option_bind].
    rewrite concat_cons, range_records_app, <-Hcat.
    set (c := prev + Z.of_nat (length g)) in *.
    destruct (decide (Z.max lo prev < Z.min hi c)) as [Hin|Hout].
    + destruct (decide (Z.max lo prev = prev ∧ Z.min hi c = c)) as [[H1 H2]|Hcut].
      * exists ((mkBinaryBuffer (encode_records g), Z.min hi c - Z.max lo prev) :: bl),
          (g :: gs').
        split; [done|]. split.
        { constructor; [|done]. split; [done|]. split.
          - intros ->. simpl in *. lia.
          - simpl. lia. }
        rewrite concat_cons. f_equal. unfold range_records.
        replace (Z.to_nat (lo - prev)) with O by lia.
        rewrite drop_0, take_ge; [done|lia].
      * rewrite slice_records_encode by (done || lia).
        cbn [mbind option_bind].
        set (part := take (Z.to_nat (Z.min hi c - Z.max lo prev))
                       (drop (Z.to_nat (Z.max lo prev - prev)) g)).
        assert (length part = Z.to_nat (Z.min hi c - Z.max lo prev)) as Hlen.
        { subst part. rewrite length_take, length_drop. lia. }
        exists ((mkBinaryBuffer (encode_records part),
                 Z.min hi c - Z.max lo prev) :: bl), (part :: gs').
        split; [done|]. split.
        { constructor; [|done]. split; [done|]. split.
          - intros Hp. rewrite Hp in Hlen. simpl in Hlen. lia.
          - simpl. lia. }
        rewrite concat_cons. f_equal. subst part. unfold range_records.
        replace (Z.to_nat (lo - prev)) with (Z.to_nat (Z.max lo prev - prev))
          by lia.
        destruct (decide (hi <= c)) as [Hhi|Hhi].
        { f_equal. lia. }
        rewrite !take_ge; [done| |]; rewrite length_drop; lia.
    + exists bl, gs'. split; [done|]. split; [done|].
      unfold range_records.
      destruct (decide (hi <= Z.max lo prev)) as [Hhi|Hhi].
      * replace (Z.to_nat (hi - Z.max lo prev)) with O by lia.
        by rewrite take_0.
      * rewrite drop_ge by lia. by rewrite take_nil.
Qed.

(** ** Reading a chain *)

Lemma block_length_lookup chain k e :
  elements_ chain !! k = Some e →
  block_length chain k = length (bytes (buffer e)).
Proof. intros H. unfold block_length. by rewrite H. Qed.

Lemma advance_inside chain k cursor :
  (cursor < block_length chain k)%nat →
  advance (mkIterator k cursor) chain = mkIterator k cursor.
Proof.
  intros H. unfold advance, bytes_left. simpl.
  by rewrite bool_decide_eq_true_2.
Qed.

Lemma advance_next chain k :
  (S k < length (elements_ chain))%nat →
  advance (mkIterator k (block_length chain k)) chain = mkIterator (S k) 0.
Proof.
  intros H. unfold advance, bytes_left, later_block. simpl.
  rewrite bool_decide_eq_false_2 by lia. by rewrite bool_decide_eq_true_2.
Qed.

Lemma advance_last chain k :
  ¬ (S k < length (elements_ chain))%nat →
  advance (mkIterator k (block_length chain k)) chain =
  mkIterator k (block_length chain k).
Proof.
  intros H. unfold advance, bytes_left, later_block. simpl.
  rewrite bool_decide_eq_false_2 by lia. by rewrite bool_decide_eq_false_2.
Qed.

Lemma HasNext_last chain k :
  ¬ (S k < length (elements_ chain))%nat →
  HasNext (mkIterator k (block_length chain k)) chain = false.
Proof.
  intros H. unfold HasNext, bytes_left, later_block. simpl.
  rewrite bool_decide_eq_false_2 by lia. by rewrite bool_decide_eq_false_2.
Qed.

(** [Next()] in front of a record of the current block. *)
Lemma Next_record chain k e front x back :
  elements_ chain !! k = Some e →
  bytes (buffer e) = front ++ encode_string x ++ back →
  short x →
  HasNext (mkIterator k (length front)) chain = true ∧
  Next (mkIterator k (length front)) chain =
  Some (x, advance (mkIterator k (length (front ++ encode_string x))) chain).
Proof.
  intros Hk Hbytes Hx.
  assert (length front < block_length chain k)%nat as Hleft.
  { rewrite (block_length_lookup _ _ _ Hk), Hbytes, !length_app,
      length_encode_string. lia. }
  assert (HasNext (mkIterator k (length front)) chain = true) as Hhas.
  { unfold HasNext, bytes_left. simpl. by rewrite bool_decide_eq_true_2. }
  split; [done|]. unfold Next. rewrite Hhas, advance_inside by done.
  cbn [it_block it_cursor]. rewrite Hk. cbn [mbind option_bind].
  rewrite Hbytes, drop_app_length.
  rewrite decode_encode_string by done. cbn [mbind option_bind].
  do 4 f_equal. rewrite !length_app. lia.
Qed.

Lemma read_while_S fuel it chain result :
  read_while (S fuel) it chain result =
  if HasNext it chain then
    r ← Next it chain; read_while fuel r.2 chain (result ++ [r.1])
  else Some (result, it).
Proof.
  cbn [read_while]. destruct (HasNext it chain); [|done].
  by destruct (Next it chain) as [[]|].
Qed.

(** The inner loop over the rest of a block. *)
Lemma read_while_block chain k e : ∀ todo seen result fuel,
  elements_ chain !! k = Some e →
  bytes (buffer e) = encode_records (seen ++ todo) →
  Forall short todo →
  todo ≠ [] →
  read_while (length todo + fuel) (mkIterator k (length (encode_records seen)))
    chain result =
  read_while fuel (advance (mkIterator k (block_length chain k)) chain) chain
    (result ++ todo).
Proof.
  induction todo as [|x todo IH]; intros seen result fuel Hk Hbytes Hshort Hne;
    [done|].
  apply Forall_cons in Hshort as [Hx Hshort].
  destruct (Next_record chain k e (encode_records seen) x (encode_records todo))
    as [Hhas Hnext]; [done| |done|].
  { by rewrite Hbytes, encode_records_app, encode_records_cons. }
  cbn [length Nat.add]. rewrite read_while_S, Hhas, Hnext. cbn [mbind option_bind fst snd].
  assert (encode_records seen ++ encode_string x = encode_records (seen ++ [x]))
    as Henc.
  { rewrite encode_records_app.
    change (encode_records [x]) with (encode_string x ++ []).
    by rewrite app_nil_r. }
  rewrite Henc.
  destruct todo as [|y todo].
  - rewrite (block_length_lookup _ _ _ Hk), Hbytes. done.
  - rewrite advance_inside.
    + rewrite (IH (seen ++ [x])); [|done| |done|done].
      * by rewrite <-(assoc_L (++)).
      * by rewrite <-(assoc_L (++)).
    + rewrite (block_length_lookup _ _ _ Hk), Hbytes.
      replace (seen ++ x :: y :: todo) with ((seen ++ [x]) ++ y :: todo)
        by (by rewrite <-(assoc_L (++))).
      rewrite (encode_records_app (seen ++ [x])), encode_records_cons.
      rewrite !length_app, length_encode_string. lia.
Qed.

Lemma read_while_whole_block chain k e g result fuel :
  elements_ chain !! k = Some e →
  bytes (buffer e) = encode_records g →
  Forall short g →
  g ≠ [] →
  read_while (length g + fuel) (mkIterator k 0) chain result =
  read_while fuel (advance (mkIterator k (block_length chain k)) chain) chain
    (result ++ g).
Proof. apply (read_while_block chain k e g [] result fuel). Qed.

(** The inner loop from the start of a block to the end of the chain. *)
Lemma read_while_blocks gs : ∀ chain pre e g post result fuel,
  elements_ chain = pre ++ e :: post →
  bytes (buffer e) = encode_records g → g ≠ [] →
  holds post gs →
  Forall short (g ++ concat gs) →
  ∃ it,
    read_while (length (g ++ concat gs) + S fuel) (mkIterator (length pre) 0)
      chain result = Some (result ++ g ++ concat gs, it) ∧
    HasNext it chain = false.
Proof.
  induction gs as [|g' gs IH];
    intros chain pre e g post result fuel Hel Hbytes Hne Hpost Hshort.
  - apply Forall2_nil_inv_r in Hpost as ->.
    cbn [concat] in *. rewrite app_nil_r in *.
    assert (elements_ chain !! length pre = Some e) as Hk
      by (rewrite Hel; apply list_lookup_middle; done).
    rewrite (read_while_whole_block chain (length pre) e g result (S fuel));
      [|done|done|done|done].
    assert (¬ (S (length pre) < length (elements_ chain))%nat) as Hlast
      by (rewrite Hel, length_app; simpl; lia).
    rewrite advance_last by done.
    exists (mkIterator (length pre) (block_length chain (length pre))).
    by rewrite read_while_S, !HasNext_last by done.
  - apply Forall2_cons_inv_r in Hpost as (e' & post' & [Hbytes' Hne'] & Hpost' & ->).
    assert (elements_ chain !! length pre = Some e) as Hk
      by (rewrite Hel; apply list_lookup_middle; done).
    rewrite concat_cons in *.
    apply Forall_app in Hshort as [Hg Hrest].
    rewrite length_app, <-Nat.add_assoc.
    rewrite (read_while_whole_block chain (length pre) e g result
               (length (g' ++ concat gs) + S fuel));
      [|done|done|done|done].
    rewrite advance_next by (rewrite Hel, length_app; simpl; lia).
    destruct (IH chain (pre ++ [e]) e' g' post' (result ++ g) fuel)
      as (it & Hread & Hhas); [|done|done|done|done|].
    { by rewrite Hel, <-(assoc_L (++)). }
    exists it.
    replace (length (pre ++ [e])) with (S (length pre)) in Hread
      by (rewrite length_app; simpl; lia).
    rewrite Hread.
    split; [|done]. by rewrite <-(assoc_L (++)).
Qed.

(** Reading a chain from its start. *)
Lemma read_while_chain chain gs fuel :
  holds (elements_ chain) gs →
  Forall short (concat gs) →
  (length (concat gs) < fuel)%nat →
  ∃ it,
    read_while fuel (mkIterator 0 0) chain [] = Some (concat gs, it) ∧
    HasNext it chain = false.
Proof.
  intros Hholds Hshort Hfuel.
  destruct fuel as [|fuel]; [lia|].
  destruct gs as [|g gs].
  - apply Forall2_nil_inv_r in Hholds.
    exists (mkIterator 0 0).
    assert (HasNext (mkIterator 0 0) chain = false) as Hhas.
    { unfold HasNext, bytes_left, later_block, block_length. rewrite Hholds.
      simpl. done. }
    by rewrite read_while_S, Hhas.
  - apply Forall2_cons_inv_r in Hholds as (e & post & [Hbytes Hne] & Hpost & Hel).
    rewrite concat_cons in *.
    destruct (read_while_blocks gs chain [] e g post []
                (fuel - length (g ++ concat gs))) as (it & Hread & Hhas);
      [done|done|done|done|done|].
    exists it. split; [|done].
    replace (S fuel) with (length (g ++ concat gs) +
                           S (fuel - length (g ++ concat gs)))%nat by lia.
    exact Hread.
Qed.

(** ** The local path of the scatter *)

Lemma append_blocks_cons t bn rest :
  append_blocks t (bn :: rest) =
  append_blocks
    (AppendElement t (mkElement bn.1 (size_t_add (_size t) bn.2) 0)) rest.
Proof. reflexivity. Qed.

Lemma append_blocks_parts bl : ∀ gs t,
  Forall2 block_part bl gs →
  ∃ t' news,
    append_blocks t bl = Some t' ∧
    elements_ t' = elements_ t ++ news ∧
    holds news gs ∧
    closed_ t' = closed_ t.
Proof.
  induction bl as [|bn bl IH]; intros gs t Hparts.
  - apply Forall2_nil_inv_l in Hparts as ->.
    exists t, []. split; [done|]. split; [by rewrite app_nil_r|].
    split; [constructor|done].
  - apply Forall2_cons_inv_l in Hparts as (g & gs' & (Hb & Hne & _) & Hrest & ->).
    rewrite append_blocks_cons.
    destruct (IH gs' (AppendElement t
                        (mkElement bn.1 (size_t_add (_size t) bn.2) 0)) Hrest)
      as (t' & news & Hrun & Hel & Hholds & Hcl).
    exists t', (mkElement bn.1 (size_t_add (_size t) bn.2) 0 :: news).
    split; [done|]. split.
    { rewrite Hel. simpl. unfold push_back. by rewrite <-(assoc_L (++)). }
    split; [|done]. by constructor.
Qed.

Lemma MoveTo_of_new_staging t : MoveTo OrderedBufferChain_new t = Some t.
Proof. reflexivity. Qed.

(** ** The emitter *)

Lemma blocks_of_app gs1 : ∀ prev gs2,
  blocks_of prev (gs1 ++ gs2) =
  blocks_of prev gs1 ++
  blocks_of (prev + Z.of_nat (length (concat gs1))) gs2.
Proof.
  induction gs1 as [|g gs1 IH]; intros prev gs2.
  - simpl. by rewrite Z.add_0_r.
  - rewrite <-app_comm_cons. cbn [blocks_of]. rewrite IH.
    rewrite concat_cons, length_app, Nat2Z.inj_add, Z.add_assoc. done.
Qed.

Lemma size_blocks_of c gs :
  elements_ c = blocks_of 0 gs → _size c = Z.of_nat (length (concat gs)).
Proof.
  intros Hel. unfold _size, back. rewrite Hel.
  destruct gs as [|g gs _] using rev_ind; [done|].
  rewrite blocks_of_app. cbn [blocks_of]. rewrite last_snoc. simpl.
  rewrite concat_app, length_app. simpl. rewrite app_nil_r. lia.
Qed.

Lemma Emitter_Flush_state em c gs pending :
  emitter_state em c gs pending →
  Z.of_nat (length (concat gs ++ pending)) < SIZE_MODULUS →
  ∃ em' c' gs',
    Emitter_Flush em c = Some (em', c') ∧
    emitter_state em' c' gs' [] ∧
    concat gs' = concat gs ++ pending ∧
    closed_ c' = closed_ c.
Proof.
  intros (Hel & Hbytes & Hcount & Hopen) Hfit. unfold Emitter_Flush.
  destruct (builder_bytes (em_builder em)) as [|b0 bs] eqn:Hb.
  - symmetry in Hbytes. apply encode_records_nil in Hbytes as ->.
    exists em, c, gs. split; [done|]. split; [|by rewrite app_nil_r].
    split; [done|]. split; [exact Hb|]. by split.
  - rewrite BufferChainFacts.Append_eq. cbn [mbind option_bind fst snd].
    exists (mkEmitter (Detach (em_builder em)) (em_closed em)),
      (appended c (em_builder em)), (gs ++ [pending]).
    split; [done|]. split.
    + split; [|done].
      cbn [appended elements_]. rewrite Hel, blocks_of_app. f_equal.
      cbn [blocks_of]. unfold BinaryBuffer_of. rewrite Hb, Hbytes.
      rewrite (size_blocks_of c gs Hel), Hcount. rewrite Z.add_0_l.
      rewrite BufferChainFacts.size_t_add_small; [done|].
      rewrite length_app in Hfit. lia.
    + split; [|done]. rewrite concat_app. simpl. by rewrite app_nil_r.
Qed.

Lemma Emitter_Emit_state x em c gs pending :
  emitter_state em c gs pending →
  Z.of_nat (length (concat gs ++ pending ++ [x])) < SIZE_MODULUS →
  ∃ em' c' gs' pending',
    Emitter_Emit x em c = Some (em', c') ∧
    emitter_state em' c' gs' pending' ∧
    concat gs' ++ pending' = concat gs ++ pending ++ [x] ∧
    closed_ c' = closed_ c.
Proof.
  intros (Hel & Hbytes & Hcount & Hopen) Hfit. unfold Emitter_Emit.
  rewrite Hopen.
  set (b := mkBuilder (builder_bytes (em_builder em) ++ encode_string x)
              (size_t_add (elements (em_builder em)) 1)).
  assert (emitter_state (mkEmitter b false) c gs (pending ++ [x])) as Hstate.
  { split; [done|]. split.
    - subst b. cbn [em_builder builder_bytes]. rewrite Hbytes.
      rewrite encode_records_app.
      change (encode_records [x]) with (encode_string x ++ []).
      by rewrite app_nil_r.
    - split; [|done]. subst b. cbn [em_builder elements builder_elements].
      fold (elements (em_builder em)). rewrite Hcount.
      rewrite !length_app in *. simpl in *.
      rewrite BufferChainFacts.size_t_add_small; lia. }
  destruct (decide (BLOCK_THRESHOLD < Z.of_nat (length (builder_bytes b)))).
  - destruct (Emitter_Flush_state _ _ _ _ Hstate) as (em' & c' & gs' & Hrun & Hst & Hcat & Hcl).
    { exact Hfit. }
    exists em', c', gs', []. split; [done|]. split; [done|].
    split; [|done]. by rewrite app_nil_r, Hcat.
  - by exists (mkEmitter b false), c, gs, (pending ++ [x]).
Qed.

Lemma on_dia_single op em c r n chs out em' c' :
  op em c = Some (em', c') →
  on_dia op 0 em (mkManager r n [c] chs out) =
  Some (em', mkManager r n [c'] chs out).
Proof. intros H. unfold on_dia. simpl. by rewrite H. Qed.

Lemma run_emitter_ops_cons id op ops em m :
  run_emitter_ops id (op :: ops) em m =
  r ← run_emitter_op id op em m; run_emitter_ops id ops r.1 r.2.
Proof. reflexivity. Qed.

Lemma run_emitter_ops_state r n chs out ops : ∀ em c gs pending,
  emitter_state em c gs pending →
  Z.of_nat (length (concat gs ++ pending ++ emitted ops)) < SIZE_MODULUS →
  ∃ em' c' gs' pending',
    run_emitter_ops 0 ops em (mkManager r n [c] chs out) =
      Some (em', mkManager r n [c'] chs out) ∧
    emitter_state em' c' gs' pending' ∧
    concat gs' ++ pending' = concat gs ++ pending ++ emitted ops ∧
    closed_ c' = closed_ c.
Proof.
  induction ops as [|op ops IH]; intros em c gs pending Hstate Hfit.
  - exists em, c, gs, pending. split; [done|]. split; [done|].
    split; [|done]. by rewrite app_nil_r.
  - rewrite run_emitter_ops_cons.
    assert (emitted (op :: ops) =
            match op with Emit x => [x] | Flush => [] end ++ emitted ops)
      as Hem by reflexivity.
    rewrite Hem in *. destruct op as [x|].
    + destruct (Emitter_Emit_state x em c gs pending Hstate)
        as (em1 & c1 & gs1 & p1 & Hrun1 & Hst1 & Hcat1 & Hcl1).
      { rewrite !length_app in *. simpl in *. lia. }
      cbn [run_emitter_op]. rewrite (on_dia_single _ _ _ _ _ _ _ _ _ Hrun1).
      cbn [mbind option_bind fst snd].
      destruct (IH em1 c1 gs1 p1 Hst1) as (em' & c' & gs' & p' & Hrun & Hst & Hcat & Hcl).
      { rewrite (assoc_L (++)), Hcat1, <-!(assoc_L (++)). exact Hfit. }
      exists em', c', gs', p'. split; [done|]. split; [done|].
      split; [|congruence].
      by rewrite Hcat, (assoc_L (++)), Hcat1, <-!(assoc_L (++)).
    + destruct (Emitter_Flush_state em c gs pending Hstate)
        as (em1 & c1 & gs1 & Hrun1 & Hst1 & Hcat1 & Hcl1).
      { rewrite !length_app in *. simpl in *. lia. }
      cbn [run_emitter_op]. rewrite (on_dia_single _ _ _ _ _ _ _ _ _ Hrun1).
      cbn [mbind option_bind fst snd].
      destruct (IH em1 c1 gs1 [] Hst1) as (em' & c' & gs' & p' & Hrun & Hst & Hcat & Hcl).
      { simpl. rewrite Hcat1, <-!(assoc_L (++)). exact Hfit. }
      exists em', c', gs', p'. split; [done|]. split; [done|].
      split; [|congruence].
      rewrite Hcat. simpl. by rewrite Hcat1, <-!(assoc_L (++)).
Qed.

Lemma scatter_worker_self ops k :
  scatter_worker 0 1 ops [k] =
  r ← run_emitter_ops 0 ops Emitter_new
         (mkManager 0 1 [mkChain [] false 0]
            [mkChannel (mkChain [] false 0) true OrderedBufferChain_new [false]]
            []);
  r' ← on_dia Emitter_Close 0 r.1 r.2;
  m ← Scatter 0 0 [k] r'.2;
  Some (0%nat, m).
Proof.
  unfold scatter_worker. simpl.
  destruct (run_emitter_ops _ _ _ _) as [[em m]|]; [|done]. simpl.
  by destruct (on_dia _ _ _ _) as [[em' m']|].
Qed.

(** A worker alone in its group scatters [k] records to itself: the target
    chain of the channel is closed and holds the first [k] records of the
    source. *)
Lemma scatter_worker_self_target ops k :
  Forall short (emitted ops) →
  Z.of_nat (length (emitted ops)) < SIZE_MODULUS →
  ∃ m ch gs,
    scatter_worker 0 1 ops [k] = Some (0%nat, m) ∧
    channels m !! 0%nat = Some ch ∧
    outbox m = [] ∧
    closed_senders ch = [true] ∧
    IsClosed (target ch) = true ∧
    holds (elements_ (target ch)) gs ∧
    concat gs = take (Z.to_nat k) (emitted ops).
Proof.
  intros Hshort Hfit. rewrite scatter_worker_self.
  destruct (run_emitter_ops_state 0%nat 1%nat
              [mkChannel (mkChain [] false 0) true OrderedBufferChain_new [false]]
              [] ops Emitter_new (mkChain [] false 0) [] [])
    as (em1 & c1 & gs1 & p1 & Hrun1 & Hst1 & Hcat1 & Hcl1); [by repeat split|done|].
  rewrite Hrun1. cbn [mbind option_bind fst snd]. simpl in Hcat1.
  destruct (Emitter_Flush_state em1 c1 gs1 p1 Hst1)
    as (em2 & c2 & gs2 & Hrun2 & (Hel2 & _) & Hcat2 & Hcl2).
  { by rewrite Hcat1. }
  rewrite (on_dia_single Emitter_Close em1 c1 _ _ _ _
             (mkEmitter (em_builder em2) true) (Close c2)).
  2:{ unfold Emitter_Close. by rewrite Hrun2. }
  cbn [mbind option_bind fst snd].
  destruct (covering_blocks_of gs2 0 0 k) as (bl & gs & Hcov & Hparts & Hcat).
  { by rewrite Hcat2, Hcat1. }
  destruct (append_blocks_parts bl gs (mkChain [] false 0) Hparts)
    as (t & news & Happ & Hel & Hholds & Hcl).
  unfold Scatter. cbn [dias lookup list_lookup mbind option_bind].
  cbn [scatter_loop]. unfold scatter_to. cbn [Close elements_].
  rewrite Hel2, Hcov. cbn [mbind option_bind my_rank].
  rewrite decide_True by done. cbn [channels lookup list_lookup mbind option_bind target].
  rewrite Happ. cbn [mbind option_bind].
  unfold Channel_close_sender. cbn [closed_senders ordered staging target].
  simpl (forallb id _). cbn iota. rewrite MoveTo_of_new_staging.
  cbn [mbind option_bind].
  eexists _, _, gs. split; [reflexivity|]. split; [reflexivity|].
  split; [done|]. split; [done|]. split; [done|].
  split.
  - cbn [target Close elements_]. rewrite Hel. exact Hholds.
  - rewrite Hcat, Hcat2, Hcat1. unfold range_records.
    rewrite Z.max_id, Z.sub_0_r. by rewrite drop_0.
Qed.

Lemma foldl_send m frames :
  foldl send m frames =
  mkManager (my_rank m) (group_size m) (dias m) (channels m)
    (outbox m ++ frames).
Proof.
  revert m. induction frames as [|f frames IH]; intros m.
  - simpl. rewrite app_nil_r. by destruct m.
  - simpl. rewrite IH. simpl. by rewrite <-(assoc_L (++)).
Qed.

(** The remote path of the scatter, for a source that holds the flushed
    groups [gs]: the worker sends to destination [j] the records [lo, hi)
    of its source and no others, in order, in [CHANNEL_DATA] frames that
    each hold at least one record and carry the number of their records,
    and behind them one [CHANNEL_CLOSE]. *)
Lemma scatter_to_remote src gs id lo hi j m :
  elements_ src = blocks_of 0 gs →
  Forall short (concat gs) →
  j ≠ my_rank m →
  ∃ parts,
    scatter_to src id lo hi j m =
    Some (mkManager (my_rank m) (group_size m) (dias m) (channels m)
            (outbox m
             ++ ((λ g, mkFrame DATA (my_rank m) j id (Z.of_nat (length g))
                         (encode_records g)) <$> parts)
             ++ [mkFrame CLOSE (my_rank m) j id 0 []])) ∧
    Forall (λ g, g ≠ []) parts ∧
    concat parts = range_records 0 (concat gs) lo hi.
Proof.
  intros Hel Hshort Hj.
  destruct (covering_blocks_of gs 0 lo hi Hshort) as (bl & parts & Hcov & Hparts & Hcat).
  exists parts. unfold scatter_to. rewrite Hel, Hcov.
  cbn [mbind option_bind]. rewrite decide_False by done.
  rewrite foldl_send. unfold send. cbn [my_rank group_size dias channels outbox].
  split; [|split; [|done]].
  - rewrite <-(assoc_L (++)). do 4 f_equal.
    clear Hcov Hcat. induction Hparts as [|b g bl parts (Hb & _ & Hn) _ IH];
      [done|].
    rewrite !fmap_cons, IH. f_equal. destruct b as [b n]. simpl in *.
    by rewrite Hb, Hn.
  - clear Hcov Hcat. induction Hparts as [|b g bl parts (_ & Hne & _) _ IH];
      by constructor.
Qed.

(** ** The tests *)

Local Open Scope string_scope.

(** After the scatter the target chain of the channel holds the two blocks
    the emitter flushed, with the cumulative counts 2 and 3, and is closed;
    nothing was sent to another worker. *)
Example Scatter_OneWorker_target :
  (r ← Scatter_OneWorker_scatter;
   ch ← channels r.2 !! r.1;
   Some (counts (target ch), IsClosed (target ch), closed_senders ch,
         outbox r.2)) =
  Some ([2; 3], true, [true], []).
Proof. vm_compute. reflexivity. Qed.

(** C8.  One worker scatters a local source of "foo", "bar" and "breakfast is
    the most important meal of the day." with offsets [3] to itself: the
    iterator has a next element, returns the three strings in that order,
    then has no next element and is finished.  The body of the test is an
    instance of the following: a worker alone in its group that emits any
    strings (each shorter than 2^32 bytes, fewer than 2^64 of them), with
    flushes wherever it likes, closes the emitter and scatters with offsets
    [k] to itself, sends nothing and finds on the channel the first [k]
    records of its source, in order: [ReadIterator] returns them, and its
    inner loop leaves an iterator that has no next element and is
    finished. *)
Theorem C8_Scatter_OneWorker :
  Scatter_OneWorker =
    Some (true,
          ["foo"; "bar"; "breakfast is the most important meal of the day."],
          false, true) ∧
  Scatter_OneWorker_scatter =
    scatter_worker 0 1
      [Emit "foo"; Emit "bar"; Flush;
       Emit "breakfast is the most important meal of the day."] [3] ∧
  ∀ (ops : list emitter_op) (k : Z) (fuel : nat),
    Forall short (emitted ops) →
    Z.of_nat (length (emitted ops)) < SIZE_MODULUS →
    (length (take (Z.to_nat k) (emitted ops)) < fuel)%nat →
    ∃ channel_id m ch it it',
      scatter_worker 0 1 ops [k] = Some (channel_id, m) ∧
      channels m !! channel_id = Some ch ∧
      outbox m = [] ∧
      GetIterator channel_id m = Some it ∧
      read_while fuel it (target ch) [] =
        Some (take (Z.to_nat k) (emitted ops), it') ∧
      HasNext it' (target ch) = false ∧
      IsFinished it' (target ch) = true ∧
      read_channel fuel channel_id m = Some (take (Z.to_nat k) (emitted ops)).
Proof.
  split; [vm_compute; reflexivity|]. split; [vm_compute; reflexivity|].
  intros ops k fuel Hshort Hfit Hfuel.
  destruct (scatter_worker_self_target ops k Hshort Hfit)
    as (m & ch & gs & Hrun & Hch & Hout & _ & Hclosed & Hholds & Hcat).
  destruct (read_while_chain (target ch) gs fuel Hholds) as (it' & Hread & Hhas).
  { rewrite Hcat. by apply Forall_take. }
  { by rewrite Hcat. }
  assert (IsFinished it' (target ch) = true) as Hfin.
  { unfold IsFinished. rewrite Hclosed. unfold HasNext in Hhas.
    by destruct (bytes_left it' (target ch)), (later_block it' (target ch)). }
  assert (GetIterator 0 m = Some (mkIterator 0 0)) as Hit
    by (unfold GetIterator; by rewrite Hch).
  exists 0%nat, m, ch, (mkIterator 0 0), it'.
  rewrite <-Hcat. split; [done|]. split; [done|]. split; [done|].
  split; [done|]. split; [done|]. split; [done|]. split; [done|].
  unfold read_channel. rewrite Hit, Hch. cbn [mbind option_bind].
  unfold ReadIterator. rewrite Hclosed. cbn [negb andb].
  rewrite Hread. cbn [mbind option_bind fst snd]. by rewrite Hfin.
Qed.

Lemma C8_Scatter_OneWorker_witness :
  ∃ channel_id m ch it it',
    scatter_worker 0 1
      [Emit "foo"; Emit "bar"; Flush;
       Emit "breakfast is the most important meal of the day."] [3]
      = Some (channel_id, m) ∧
    channels m !! channel_id = Some ch ∧
    outbox m = [] ∧
    GetIterator channel_id m = Some it ∧
    read_while 4 it (target ch) [] =
      Some (["foo"; "bar";
             "breakfast is the most important meal of the day."], it') ∧
    HasNext it' (target ch) = false ∧
    IsFinished it' (target ch) = true ∧
    read_channel 4 channel_id m =
      Some ["foo"; "bar"; "breakfast is the most important meal of the day."].
Proof.
  apply (proj2 (proj2 C8_Scatter_OneWorker)
           [Emit "foo"; Emit "bar"; Flush;
            Emit "breakfast is the most important meal of the day."] 3 4%nat).
  - repeat constructor.
  - by vm_compute.
  - simpl. lia.
Defined.

(** With offsets [2] the same worker finds the first two strings only: the
    second block of the source is outside the range. *)
Example Scatter_OneWorker_two_of_three :
  (r ← scatter_worker 0 1
         [Emit "foo"; Emit "bar"; Flush;
          Emit "breakfast is the most important meal of the day."] [2];
   read_channel 4 r.1 r.2) = Some ["foo"; "bar"].
Proof. vm_compute. reflexivity. Qed.

(** The tests with two and three workers.  In the last one the source of
    worker 1 is one block of four records, of which the first two stay and
    the last two go to worker 2; the order in which the senders' frames
    arrive makes no difference. *)
Example Scatter_TwoWorkers_OnlyLocalCopy_reads :
  scatter_test 4 Scatter_TwoWorkers_OnlyLocalCopy [0; 1]%nat =
  Some [["foo"; "bar"]; ["hello"; "world"; "."]].
Proof. vm_compute. reflexivity. Qed.

Example Scatter_TwoWorkers_CompleteExchange_reads :
  scatter_test 4 Scatter_TwoWorkers_CompleteExchange [0; 1]%nat =
  Some [["hello"; "world"; "."]; ["foo"; "bar"]].
Proof. vm_compute. reflexivity. Qed.

Example Scatter_ThreeWorkers_PartialExchange_reads :
  scatter_test 4 Scatter_ThreeWorkers_PartialExchange [0; 1; 2]%nat =
    Some [["1"; "2"]; ["3"; "4"]; ["5"; "6"]] ∧
  scatter_test 4 Scatter_ThreeWorkers_PartialExchange [2; 1; 0]%nat =
    Some [["1"; "2"]; ["3"; "4"]; ["5"; "6"]].
Proof. split; vm_compute; reflexivity. Qed.

End ChannelsFacts.

(** * Closing a file *)

Module UfsFacts.
Import Io.

Section Close.
Context {World : Type} (sys_close : Z → World → Z * World).

(** Once the descriptor is -1, [close()] returns at its first test: no
    system call, nothing changed. *)
Lemma close_closed f w :
  file_des f = -1 → close sys_close f w = (Returned, f, w).
Proof. intros Hfd. unfold close. by rewrite decide_True. Qed.

Lemma close_times_closed n f w :
  file_des f = -1 → close_times sys_close n f w = (Returned, f, w).
Proof.
  intros Hfd. induction n as [|n IH]; [done|].
  cbn [close_times]. by rewrite close_closed.
Qed.

Lemma close_returned f w f' w' :
  close sys_close f w = (Returned, f', w') →
  file_des f' = -1 ∧
  m_mode f' = m_mode f ∧ m_is_device f' = m_is_device f ∧
  filename f' = filename f ∧
  (file_des f = -1 → w' = w) ∧
  (file_des f ≠ -1 →
   ∃ rc, sys_close (file_des f) w = (rc, w') ∧ 0 <= rc).
Proof.
  unfold close. destruct (decide (file_des f = -1)) as [Hfd|Hfd].
  - intros [= <- <-]. by repeat split.
  - destruct (sys_close (file_des f) w) as [rc w1] eqn:Hsys. simpl.
    destruct (decide (rc < 0)) as [Hrc|Hrc]; [done|].
    intros [= <- <-]. repeat split; try done.
    intros _. exists rc. split; [done|lia].
Qed.
End Close.

(** C10.  On an open descriptor [close()] hands exactly that descriptor to
    [::close]; when [::close] succeeds, [close()] returns with the descriptor
    set to -1, and when it fails, [close()] throws and keeps the descriptor.
    With the descriptor at -1 [close()] returns at once, without a system
    call.  So after any call that returned the descriptor is -1, and every
    further [close()], and the destructor, returns without throwing and
    without a system call, leaving the object and the operating system as
    they are. *)
Theorem C10_close_idempotent {World : Type} (sys_close : Z → World → Z * World)
  (f : UfsFileBase) (w : World) :
  (file_des f ≠ -1 → 0 <= (sys_close (file_des f) w).1 →
   close sys_close f w =
   (Returned, set_file_des f (-1), (sys_close (file_des f) w).2)) ∧
  (file_des f ≠ -1 → (sys_close (file_des f) w).1 < 0 →
   close sys_close f w = (Thrown_IoError, f, (sys_close (file_des f) w).2)) ∧
  (file_des f = -1 → close sys_close f w = (Returned, f, w)) ∧
  ∀ f' w',
    close sys_close f w = (Returned, f', w') →
    file_des f' = -1 ∧
    (file_des f ≠ -1 →
     f' = set_file_des f (-1) ∧
     ∃ rc, sys_close (file_des f) w = (rc, w') ∧ 0 <= rc) ∧
    (∀ n, close_times sys_close n f' w' = (Returned, f', w')) ∧
    destroy sys_close f' w' = (Returned, f', w').
Proof.
  split.
  { intros Hopen Hrc. unfold close.
    rewrite decide_False by done. by rewrite decide_False by lia. }
  split.
  { intros Hopen Hrc. unfold close.
    rewrite decide_False by done. by rewrite decide_True by done. }
  split; [apply close_closed|].
  intros f' w' Hclose.
  destruct (close_returned sys_close f w f' w' Hclose)
    as (Hfd & Hmode & Hdev & Hname & _ & Hsys).
  split; [done|]. split.
  - intros Hopen. split; [|by apply Hsys].
    destruct f, f'; simpl in *. by subst.
  - split; [intros n; by apply close_times_closed|].
    by apply close_closed.
Qed.

Lemma C10_close_idempotent_witness :
  close (λ fd log, (0, fd :: log)) (mkUfs 3 5 false "/tmp/f") [] =
    (Returned, mkUfs (-1) 5 false "/tmp/f", [3]) ∧
  file_des (mkUfs (-1) 5 false "/tmp/f") = -1 ∧
  (∀ n, close_times (λ fd log, (0, fd :: log)) n
          (mkUfs (-1) 5 false "/tmp/f") [3]
        = (Returned, mkUfs (-1) 5 false "/tmp/f", [3])) ∧
  destroy (λ fd log, (0, fd :: log)) (mkUfs (-1) 5 false "/tmp/f") [3]
    = (Returned, mkUfs (-1) 5 false "/tmp/f", [3]).
Proof.
  pose proof (C10_close_idempotent (λ fd log, (0, fd :: log))
                (mkUfs 3 5 false "/tmp/f") []) as (Hopen & _ & _ & Hafter).
  split; [apply Hopen; [discriminate|simpl; lia]|].
  destruct (Hafter (mkUfs (-1) 5 false "/tmp/f") [3] eq_refl)
    as (Hfd & _ & Hrepeat & Hdestroy).
  split; [exact Hfd|]. split; [exact Hrepeat|exact Hdestroy].
Defined.

(** A failing [::close] makes [close()] throw and leaves the descriptor
    set, so the next call tries again. *)
Example close_throws_keeps_descriptor :
  close (λ fd (log : list Z), (-1, fd :: log)) (mkUfs 3 5 false "/tmp/f") []
  = (Thrown_IoError, mkUfs 3 5 false "/tmp/f", [3]).
Proof. reflexivity. Qed.

End UfsFacts.

(** * Further properties of the chains *)

Module ChainMoreFacts.
Import Data BufferChainFacts OrderedFacts.

Lemma run_op_grows c op c' :
  run_op c op = Some c' →
  ∃ e, elements_ c' = elements_ c ++ [e] ∧ closed_ c' = closed_ c.
Proof.
  destruct op as [b|b count offset]; simpl.
  - intros [= <-]. by eexists.
  - unfold BufferChainElement_new. destruct (decide (offset = 0)); [|done].
    intros [= <-]. by eexists.
Qed.

(** X1.  The chain is append-only: a run of [Append] calls (either overload)
    that returns leaves every element that was in the chain in place, at its
    position, adds exactly one element per call behind them, and does not
    touch the closed flag. *)
Theorem chain_is_append_only (ops : list append_op) : ∀ c c',
  run_ops c ops = Some c' →
  (∃ added, elements_ c' = elements_ c ++ added ∧ length added = length ops) ∧
  (∀ i e, elements_ c !! i = Some e → elements_ c' !! i = Some e) ∧
  IsClosed c' = IsClosed c.
Proof.
  assert (∀ c c', run_ops c ops = Some c' →
            (∃ added, elements_ c' = elements_ c ++ added ∧
                      length added = length ops) ∧
            IsClosed c' = IsClosed c) as Hrun.
  { induction ops as [|op ops IH]; intros c c' Hrun.
    - injection Hrun as <-. split; [exists []; by rewrite app_nil_r|done].
    - cbn [run_ops] in Hrun. destruct (run_op c op) as [c1|] eqn:Hop; [|done].
      simpl in Hrun.
      destruct (run_op_grows _ _ _ Hop) as (e & He & Hcl).
      destruct (IH _ _ Hrun) as ((added & Hadd & Hlen) & Hclosed).
      split.
      + exists (e :: added). rewrite Hadd, He, <-(assoc_L (++)).
        split; [done|]. simpl. by rewrite Hlen.
      + unfold IsClosed in *. congruence. }
  intros c c' Hc. destruct (Hrun c c' Hc) as [(added & Hadd & Hlen) Hclosed].
  split; [by exists added|]. split; [|done].
  intros i e Hi. rewrite Hadd. by apply lookup_app_l_Some.
Qed.

Lemma chain_is_append_only_witness :
  (∃ added,
     elements_ (mkChain [mkElement (mkBinaryBuffer [x09]) 7 0;
                         mkElement (mkBinaryBuffer [x01]) 8 0;
                         mkElement (mkBinaryBuffer [x02]) 9 0] true 3) =
       elements_ (mkChain [mkElement (mkBinaryBuffer [x09]) 7 0] true 1)
       ++ added ∧
     length added =
       length [AppendBuilder (mkBuilder [x01] 1);
               AppendConstructed (mkBinaryBuffer [x02]) 9 0]) ∧
  (∀ i e,
     elements_ (mkChain [mkElement (mkBinaryBuffer [x09]) 7 0] true 1) !! i
       = Some e →
     elements_ (mkChain [mkElement (mkBinaryBuffer [x09]) 7 0;
                         mkElement (mkBinaryBuffer [x01]) 8 0;
                         mkElement (mkBinaryBuffer [x02]) 9 0] true 3) !! i
       = Some e) ∧
  IsClosed (mkChain [mkElement (mkBinaryBuffer [x09]) 7 0;
                     mkElement (mkBinaryBuffer [x01]) 8 0;
                     mkElement (mkBinaryBuffer [x02]) 9 0] true 3) =
    IsClosed (mkChain [mkElement (mkBinaryBuffer [x09]) 7 0] true 1).
Proof.
  apply (chain_is_append_only
           [AppendBuilder (mkBuilder [x01] 1);
            AppendConstructed (mkBinaryBuffer [x02]) 9 0]
           (mkChain [mkElement (mkBinaryBuffer [x09]) 7 0] true 1)).
  reflexivity.
Defined.

(** X2.  [Append(BinaryBufferBuilder&)] does not detect overflow: when the
    current [size()] and the builder's element count are both [size_t]
    values whose sum exceeds the [size_t] range, the call still returns, and
    the new [size()] is the sum less 2^64, which is below the old one. *)
Theorem Append_wraps_around (c : BufferChain) (b : BinaryBufferBuilder) :
  is_size_t (size c) → is_size_t (elements b) →
  SIZE_MODULUS <= size c + elements b →
  ∃ r, Append c b = Some r ∧
       size r.1 = size c + elements b - SIZE_MODULUS ∧
       size r.1 < size c.
Proof.
  intros [Hc0 Hc1] [Hb0 Hb1] Hover. eexists. split; [apply Append_eq|].
  simpl. rewrite size_appended. unfold size_t_add.
  assert ((size c + elements b) mod SIZE_MODULUS =
          size c + elements b - SIZE_MODULUS) as ->.
  { symmetry. apply (Z.mod_unique_pos _ _ 1); lia. }
  lia.
Qed.

Lemma Append_wraps_around_witness :
  ∃ r, Append (mkChain [mkElement (mkBinaryBuffer [x01]) (2 ^ 63) 0] false 1)
         (mkBuilder [x02] (2 ^ 63)) = Some r ∧
       size r.1 =
         size (mkChain [mkElement (mkBinaryBuffer [x01]) (2 ^ 63) 0] false 1)
         + elements (mkBuilder [x02] (2 ^ 63)) - SIZE_MODULUS ∧
       size r.1 <
         size (mkChain [mkElement (mkBinaryBuffer [x01]) (2 ^ 63) 0] false 1).
Proof.
  apply (Append_wraps_around
           (mkChain [mkElement (mkBinaryBuffer [x01]) (2 ^ 63) 0] false 1)
           (mkBuilder [x02] (2 ^ 63))); by vm_compute.
Defined.

(** X3.  [OrderedBufferChain::Append(rank, b)] touches the vector of its
    rank only: that vector grows at the back by one element holding the
    builder's buffer and element count, and the vector of every other rank
    is what it was.  The call always returns. *)
Theorem OrderedAppend_lookup (o : OrderedBufferChain) (rank k : Z)
  (b : BinaryBufferBuilder) :
  ∃ r, OrderedAppend o rank b = Some r ∧
       bucket r.1 k =
         if decide (k = rank)
         then bucket o rank ++ [mkElement (BinaryBuffer_of b) (elements b) 0]
         else bucket o k.
Proof.
  eexists. split; [apply OrderedAppend_eq|]. simpl. apply bucket_insert.
Qed.

Lemma notified_MoveTo_buffers bufs : ∀ acc t st,
  MoveTo_buffers bufs (acc, t) = Some st →
  notified_ st.2 = (notified_ t + length bufs)%nat.
Proof.
  induction bufs as [|e bufs IH]; intros acc t st Hrun.
  - injection Hrun as <-. simpl. lia.
  - apply IH in Hrun. rewrite Hrun. simpl. lia.
Qed.

Lemma notified_MoveTo_keys its : ∀ acc t st,
  MoveTo_keys its (acc, t) = Some st →
  notified_ st.2 = (notified_ t + length (flat its))%nat.
Proof.
  induction its as [|[k v] its IH]; intros acc t st Hrun.
  - injection Hrun as <-. simpl. lia.
  - cbn [MoveTo_keys snd] in Hrun.
    destruct (MoveTo_buffers v (acc, t)) as [[acc1 t1]|] eqn:Hv; [|done].
    apply notified_MoveTo_buffers in Hv. apply IH in Hrun.
    rewrite Hrun, flat_cons, length_app, length_fmap. simpl in *. lia.
Qed.

(** X4.  With nothing staged, [MoveTo] leaves the target exactly as it is:
    no element, no change of the closed flag, no notification. *)
Theorem MoveTo_nothing_staged (o : OrderedBufferChain) (target : BufferChain) :
  staged o = [] → MoveTo o target = Some target.
Proof.
  intros Hempty.
  destruct (MoveTo_eq o target) as (t' & Hmove & Hel & Hcl).
  rewrite Hmove. f_equal.
  unfold MoveTo in Hmove.
  destruct (MoveTo_keys (in_order (buffers_ o)) (0, target)) as [st|] eqn:Hkeys;
    [|done].
  injection Hmove as <-.
  apply notified_MoveTo_keys in Hkeys. fold (staged o) in Hkeys.
  rewrite Hempty in Hel, Hkeys. simpl in Hel, Hkeys.
  rewrite app_nil_r in Hel. rewrite Nat.add_0_r in Hkeys.
  destruct st.2, target. simpl in *. by subst.
Qed.

Lemma MoveTo_nothing_staged_witness :
  MoveTo OrderedBufferChain_new
    (mkChain [mkElement (mkBinaryBuffer [x01]) 1 0] false 1) =
  Some (mkChain [mkElement (mkBinaryBuffer [x01]) 1 0] false 1).
Proof.
  apply (MoveTo_nothing_staged OrderedBufferChain_new
           (mkChain [mkElement (mkBinaryBuffer [x01]) 1 0] false 1)).
  reflexivity.
Defined.

(** X5.  [MoveTo] does not consume the staging area: a second [MoveTo] on
    the same target appends the same elements once more, with the same
    counts (the counter starts at 0 again), behind those of the first. *)
Theorem MoveTo_twice (o : OrderedBufferChain) (target : BufferChain) :
  ∃ t1 t2 news,
    MoveTo o target = Some t1 ∧
    MoveTo o t1 = Some t2 ∧
    length news = length (staged o) ∧
    elements_ t1 = elements_ target ++ news ∧
    elements_ t2 = elements_ target ++ news ++ news.
Proof.
  destruct (MoveTo_eq o target) as (t1 & Hmove1 & Hel1 & _).
  destruct (MoveTo_eq o t1) as (t2 & Hmove2 & Hel2 & _).
  exists t1, t2, (transcribed 0 (staged o).*2).
  split; [done|]. split; [done|].
  split; [by rewrite length_transcribed, length_fmap|].
  split; [done|]. by rewrite Hel2, Hel1, <-(assoc_L (++)).
Qed.

(** X21.  Staging never fails, and on every target [MoveTo] returns and
    appends behind the target's elements exactly the staged elements: all of
    them once, ranks ascending, within a rank in the order of the
    [OrderedBufferChain::Append] calls.  Each transcribed element keeps its
    buffer, has offset 0, and carries as [element_count] the number of
    elements staged up to and including it, counted from 0 as a [size_t],
    whatever [size()] the target had; the closed flag of the target is
    kept. *)
Theorem MoveTo_transcribes_by_rank (h : list (Z * BinaryBufferBuilder))
  (target : BufferChain) :
  ∃ o t' news,
    ordered_appends OrderedBufferChain_new h = Some o ∧
    MoveTo o target = Some t' ∧
    elements_ t' = elements_ target ++ news ∧
    closed_ t' = closed_ target ∧
    staged o ≡ₚ sent h ∧
    Sorted Z.le (staged o).*1 ∧
    (∀ r, of_rank r (staged o) = of_rank r (sent h)) ∧
    length news = length (staged o) ∧
    ∀ i e', news !! i = Some e' →
      ∃ r e, staged o !! i = Some (r, e) ∧
             buffer e' = buffer e ∧
             offset_of_first e' = 0 ∧
             element_count e' =
               size_t_add 0
                 (sum_list_Z (take (S i) (element_count <$> (staged o).*2))).
Proof.
  destruct (ordered_appends_spec h OrderedBufferChain_new)
    as (o & Hstage & Hperm & Hbucket).
  destruct (MoveTo_eq o target) as (t' & Hmove & Hel & Hcl).
  exists o, t', (transcribed 0 (staged o).*2).
  split; [done|]. split; [done|]. split; [done|]. split; [done|].
  split; [exact Hperm|]. split; [apply staged_sorted|]. split.
  { intros r. rewrite of_rank_staged, Hbucket. simpl. apply of_rank_retag. }
  split; [by rewrite length_transcribed, length_fmap|].
  intros i e' Hi.
  apply transcribed_lookup in Hi as (e & Hlook & Hbuf & Hoff & Hcount).
  rewrite list_lookup_fmap in Hlook.
  destruct (staged o !! i) as [[r e0]|] eqn:Hst; [|done].
  injection Hlook as <-. exists r, e0.
  split; [done|]. split; [done|]. split; [done|]. done.
Qed.

End ChainMoreFacts.

(** * The comparison helpers of the channel test *)

Module ChannelTestFacts.
Import ChannelTest.

Section Compare.
Context {T : Type} `{EqDecision T}.

Lemma find_end (b : list T) x : find b x = length b ↔ x ∉ b.
Proof.
  induction b as [|y b IH]; simpl.
  - split; [intros _; apply not_elem_of_nil|done].
  - rewrite not_elem_of_cons. destruct (decide (y = x)) as [->|Hne].
    + split; [done|]. by intros [? _].
    + split.
      * intros [= Hf]. split; [congruence|by apply IH].
      * intros [_ Hx]. f_equal. by apply IH.
Qed.

Lemma find_le (b : list T) x : (find b x ≤ length b)%nat.
Proof.
  induction b as [|y b IH]; simpl; [done|].
  destruct (decide (y = x)); lia.
Qed.

Lemma VectorCompare_loop_true (a b : list T) :
  VectorCompare_loop a b = true ↔ ∀ x, x ∈ a → x ∈ b.
Proof.
  induction a as [|x a IH]; simpl.
  - split; [|done]. intros _ x Hx. by apply elem_of_nil in Hx.
  - destruct (decide (find b x = length b)) as [Hend|Hfound].
    + split; [done|]. intros Hall. apply find_end in Hend.
      destruct Hend. apply Hall. by left.
    + rewrite IH. split.
      * intros Hall y Hy. apply elem_of_cons in Hy as [->|Hy]; [|by apply Hall].
        destruct (decide (x ∈ b)) as [|Hnot]; [done|].
        by apply find_end in Hnot.
      * intros Hall y Hy. apply Hall. by right.
Qed.

Lemma OrderedVectorCompare_loop_true (a b : list T) : ∀ left i,
  (i + left = length a)%nat → length a = length b →
  OrderedVectorCompare_loop a b i left = true ↔ drop i a = drop i b.
Proof.
  induction left as [|left IH]; intros i Hi Hlen; simpl.
  - rewrite !drop_ge by lia. done.
  - destruct (lookup_lt_is_Some_2 a i) as [x Hx]; [lia|].
    destruct (lookup_lt_is_Some_2 b i) as [y Hy]; [lia|].
    rewrite Hx, Hy. rewrite (drop_S a x i Hx), (drop_S b y i Hy).
    destruct (decide (x ≠ y)) as [Hne|Heq].
    + split; [done|]. by intros [= ? _].
    + apply dec_stable in Heq. subst y. rewrite IH by lia.
      split; [by intros ->|]. by intros [= ?].
Qed.

End Compare.

(** X6.  [VectorCompare(a, b)] holds exactly when the two vectors have the
    same length and every element of [a] occurs somewhere in [b].  Hence it
    accepts every reordering of a vector, but it is not a comparison of
    multisets: it does not count how often an element occurs. *)
Theorem VectorCompare_spec {T : Type} `{EqDecision T} (a b : list T) :
  (VectorCompare a b = true ↔ length a = length b ∧ ∀ x, x ∈ a → x ∈ b) ∧
  (a ≡ₚ b → VectorCompare a b = true).
Proof.
  assert (VectorCompare a b = true ↔ length a = length b ∧ ∀ x, x ∈ a → x ∈ b)
    as Hspec.
  { unfold VectorCompare. destruct (decide (length a ≠ length b)) as [Hne|Heq].
    - split; [done|]. by intros [? _].
    - apply dec_stable in Heq. rewrite VectorCompare_loop_true. tauto. }
  split; [exact Hspec|]. intros Hperm. apply Hspec. split.
  - by rewrite Hperm.
  - intros x. by rewrite Hperm.
Qed.

Lemma VectorCompare_spec_witness : VectorCompare [1; 2; 3] [2; 3; 1] = true.
Proof.
  apply (proj2 (VectorCompare_spec [1; 2; 3] [2; 3; 1])).
  apply (Permutation_cons_append [2; 3] 1).
Defined.

(** [VectorCompare] takes a vector with a repeated element for one without,
    one way round only. *)
Example VectorCompare_not_multiset :
  VectorCompare [1; 1] [1; 2] = true ∧ VectorCompare [1; 2] [1; 1] = false.
Proof. by vm_compute. Qed.

(** X7.  [OrderedVectorCompare(a, b)] holds exactly when the two vectors are
    equal: same length and the same element at every index. *)
Theorem OrderedVectorCompare_spec {T : Type} `{EqDecision T} (a b : list T) :
  OrderedVectorCompare a b = true ↔ a = b.
Proof.
  unfold OrderedVectorCompare.
  destruct (decide (length a ≠ length b)) as [Hne|Heq].
  - split; [done|]. intros ->. done.
  - apply dec_stable in Heq.
    by rewrite (OrderedVectorCompare_loop_true a b (length a) 0).
Qed.

End ChannelTestFacts.

(** * The buffered reader *)

Module NetFacts.
Import Data Net.

Lemma store_at_end (pre data : list byte) (n : nat) :
  (length data ≤ n)%nat →
  store_at (pre ++ replicate n x00) (length pre) data =
  (pre ++ data) ++ replicate (n - length data) x00.
Proof.
  intros Hfit. unfold store_at.
  rewrite take_app_length, drop_app_add, drop_replicate.
  by rewrite <-(assoc_L (++)).
Qed.

Lemma on_readable_chunk (pre chunk : list byte) (n : nat) rest :
  (length chunk ≤ n)%nat →
  Z.of_nat (length pre + n) < SIZE_MODULUS →
  on_readable chunked_recv (receiving pre n) (chunk :: rest) =
  if decide (length chunk = n)
  then (Complete,
        mkReadBuffer (Z.of_nat (length (pre ++ chunk))) (pre ++ chunk)
          [pre ++ chunk], rest)
  else (Again, receiving (pre ++ chunk) (n - length chunk), rest).
Proof.
  intros Hfit Hrange. unfold on_readable, receiving. simpl.
  rewrite decide_False by lia.
  rewrite Nat2Z.id, store_at_end by done.
  rewrite BufferChainFacts.size_t_add_small by lia.
  rewrite !length_app, length_replicate.
  destruct (decide (length chunk = n)) as [->|Hne].
  - rewrite decide_True by lia. rewrite Nat.sub_diag. simpl.
    by rewrite !app_nil_r, Nat2Z.inj_add.
  - rewrite decide_False by lia. by rewrite Nat2Z.inj_add.
Qed.

Lemma read_until_complete_S {Socket : Type}
  (recv_one : Socket → Z → Z * list byte * Socket) k rb s :
  read_until_complete recv_one (S k) rb s =
  match on_readable recv_one rb s with
  | (Again, rb', s') => read_until_complete recv_one k rb' s'
  | done => done
  end.
Proof. reflexivity. Qed.

Lemma read_until_complete_chunks (chunks : list (list byte)) :
  ∀ (pre last : list byte),
  last ≠ [] →
  Z.of_nat (length pre + length (concat chunks ++ last)) < SIZE_MODULUS →
  read_until_complete chunked_recv (S (length chunks))
    (receiving pre (length (concat chunks ++ last))) (chunks ++ [last]) =
  (Complete,
   mkReadBuffer (Z.of_nat (length (pre ++ concat chunks ++ last)))
     (pre ++ concat chunks ++ last) [pre ++ concat chunks ++ last],
   []) ∧
  ∀ k, (k ≤ length chunks)%nat →
    (read_until_complete chunked_recv k
       (receiving pre (length (concat chunks ++ last)))
       (chunks ++ [last])).1.1 = Again.
Proof.
  induction chunks as [|chunk chunks IH]; intros pre last Hlast Hr.
  - cbn [concat app length] in *. split.
    + rewrite read_until_complete_S, on_readable_chunk by (done || lia).
      by rewrite decide_True.
    + intros k Hk. by replace k with O by lia.
  - cbn [concat app length] in *.
    rewrite <-(assoc_L (++)) in Hr |- *.
    assert (length chunk ≠ length (chunk ++ concat chunks ++ last)) as Hmore.
    { rewrite !length_app. destruct last; [done|simpl; lia]. }
    assert (length (chunk ++ concat chunks ++ last) - length chunk
            = length (concat chunks ++ last))%nat as Hleft
      by (rewrite (length_app chunk); lia).
    assert (on_readable chunked_recv
              (receiving pre (length (chunk ++ concat chunks ++ last)))
              (chunk :: chunks ++ [last]) =
            (Again, receiving (pre ++ chunk) (length (concat chunks ++ last)),
             chunks ++ [last])) as Hstep.
    { rewrite on_readable_chunk by (rewrite ?length_app in *; lia).
      rewrite decide_False by done. by rewrite Hleft. }
    destruct (IH (pre ++ chunk) last Hlast) as [Hdone Hagain].
    { rewrite length_app. rewrite (length_app chunk) in Hr. lia. }
    split.
    + rewrite read_until_complete_S, Hstep, Hdone.
      by rewrite <-!(assoc_L (++)).
    + intros [|k] Hk; [done|]. rewrite read_until_complete_S, Hstep.
      apply Hagain. lia.
Qed.

(** X8.  Reassembly.  A reader for [n] bytes (below 2^64) is fed chunks
    that add up to [n], the last of them non-empty.  Every call of
    [operator()] but the last returns [true] without calling the functional;
    the last returns [false] and calls the functional, once, with the buffer
    holding the chunks in the order of their arrival. *)
Theorem read_buffer_reassembles (chunks : list (list byte)) (last : list byte) :
  last ≠ [] →
  Z.of_nat (length (concat chunks ++ last)) < SIZE_MODULUS →
  read_until_complete chunked_recv (S (length chunks))
    (NetReadBuffer_new (length (concat chunks ++ last))) (chunks ++ [last]) =
  (Complete,
   mkReadBuffer (Z.of_nat (length (concat chunks ++ last)))
     (concat chunks ++ last) [concat chunks ++ last],
   []) ∧
  ∀ k, (k ≤ length chunks)%nat →
    (read_until_complete chunked_recv k
       (NetReadBuffer_new (length (concat chunks ++ last)))
       (chunks ++ [last])).1.1 = Again.
Proof.
  intros Hlast Hrange.
  assert (NetReadBuffer_new (length (concat chunks ++ last)) =
          receiving [] (length (concat chunks ++ last))) as ->.
  { unfold NetReadBuffer_new, receiving. rewrite decide_False; [done|].
    rewrite length_app. destruct last; [done|simpl; lia]. }
  by apply (read_until_complete_chunks chunks [] last).
Qed.

Lemma read_buffer_reassembles_witness :
  read_until_complete chunked_recv 3 (NetReadBuffer_new 4)
    [[x01; x02]; []; [x03; x04]] =
  (Complete, mkReadBuffer 4 [x01; x02; x03; x04] [[x01; x02; x03; x04]], []) ∧
  ∀ k, (k ≤ 2)%nat →
    (read_until_complete chunked_recv k (NetReadBuffer_new 4)
       [[x01; x02]; []; [x03; x04]]).1.1 = Again.
Proof.
  apply (read_buffer_reassembles [[x01; x02]; []] [x03; x04]);
    [discriminate|by vm_compute].
Defined.

(** X9.  A complete reader is not inert.  Once [size_] equals the buffer
    size (a reader of size 0 from its construction on), a further call of
    [operator()] asks the socket for 0 bytes and, when the socket reports
    0 bytes, calls the functional again with the same buffer and returns
    [false] again. *)
Theorem read_buffer_fires_again {Socket : Type}
  (recv_one : Socket → Z → Z * list byte * Socket)
  (rb : NetReadBuffer) (s s' : Socket) :
  size_ rb = Z.of_nat (length (buffer_ rb)) →
  size_ rb < SIZE_MODULUS →
  recv_one s 0 = (0, [], s') →
  on_readable recv_one rb s =
  (Complete,
   mkReadBuffer (size_ rb) (buffer_ rb) (calls_ rb ++ [buffer_ rb]), s').
Proof.
  intros Hfull Hsmall Hrecv. unfold on_readable.
  rewrite Hfull, Z.sub_diag. change (0 mod SIZE_MODULUS) with 0.
  rewrite Hrecv. simpl.
  unfold store_at. simpl. rewrite Nat2Z.id, Nat.add_0_r, take_drop.
  rewrite BufferChainFacts.size_t_add_small by lia. rewrite Z.add_0_r.
  by rewrite decide_True.
Qed.

Lemma read_buffer_fires_again_witness :
  on_readable chunked_recv (NetReadBuffer_new 0) [] =
  (Complete, mkReadBuffer 0 [] [[]; []], []).
Proof.
  apply (read_buffer_fires_again chunked_recv (NetReadBuffer_new 0) [] []);
    by vm_compute.
Defined.

End NetFacts.

(** * Opening, resizing and removing a file *)

Module UfsMoreFacts.
Import Io.


Lemma to_off_t_small x : 0 <= x < 2 ^ 63 → to_off_t x = x.
Proof. intros Hx. unfold to_off_t. rewrite Z.mod_small; lia. Qed.

Lemma land_or_if c flags bit other :
  Z.land flags bit = bit → Z.land (or_if c flags other) bit = bit.
Proof.
  intros H. destruct c; simpl; [|done].
  apply Z.bits_inj'. intros n Hn.
  apply (f_equal (λ z, Z.testbit z n)) in H.
  rewrite Z.land_spec in H. rewrite Z.land_spec, Z.lor_spec.
  destruct (Z.testbit flags n), (Z.testbit other n), (Z.testbit bit n); done.
Qed.

Lemma land_or_if_set flags bit : Z.land (or_if true flags bit) bit = bit.
Proof.
  simpl. apply Z.bits_inj'. intros n Hn. rewrite Z.land_spec, Z.lor_spec.
  destruct (Z.testbit flags n), (Z.testbit bit n); done.
Qed.

Section Ufs.
Context (K : Constants) {World : Type} (os : System World)
  (direct_io_off : bool).

(** X10.  The flags of [::open].  Every access bit asked for in [mode] is in
    the flags of the first [::open], and so is [O_DIRECT] when [DIRECT] or
    [REQUIRE_DIRECT] is asked for in a build with direct I/O.  The flags of
    the retry have no bit of [O_DIRECT] and agree with those of the first
    attempt on every other bit. *)
Theorem open_flags_bits (mode : Z) :
  (has mode (RDONLY K) = true →
   Z.land (open_flags K direct_io_off mode) (O_RDONLY K) = O_RDONLY K) ∧
  (has mode (WRONLY K) = true →
   Z.land (open_flags K direct_io_off mode) (O_WRONLY K) = O_WRONLY K) ∧
  (has mode (RDWR K) = true →
   Z.land (open_flags K direct_io_off mode) (O_RDWR K) = O_RDWR K) ∧
  (has mode (CREAT K) = true →
   Z.land (open_flags K direct_io_off mode) (O_CREAT K) = O_CREAT K) ∧
  (has mode (TRUNC K) = true →
   Z.land (open_flags K direct_io_off mode) (O_TRUNC K) = O_TRUNC K) ∧
  (has mode (DIRECT K) || has mode (REQUIRE_DIRECT K) = true →
   direct_io_off = false →
   Z.land (open_flags K direct_io_off mode) (O_DIRECT K) = O_DIRECT K) ∧
  Z.land (retry_flags K direct_io_off mode) (O_DIRECT K) = 0 ∧
  (∀ n, Z.testbit (O_DIRECT K) n = false →
        Z.testbit (retry_flags K direct_io_off mode) n =
        Z.testbit (open_flags K direct_io_off mode) n).
Proof.
  unfold open_flags. repeat split.
  - intros ->. repeat first [apply land_or_if_set | apply land_or_if].
  - intros ->. repeat first [apply land_or_if_set | apply land_or_if].
  - intros ->. repeat first [apply land_or_if_set | apply land_or_if].
  - intros ->. repeat first [apply land_or_if_set | apply land_or_if].
  - intros ->. repeat first [apply land_or_if_set | apply land_or_if].
  - intros -> ->. cbn [negb andb].
    repeat first [apply land_or_if_set | apply land_or_if].
  - unfold retry_flags. rewrite <-Z.land_assoc, (Z.land_comm (Z.lnot _)).
    by rewrite Z.land_lnot_diag, Z.land_0_r.
  - intros n Hbit. unfold retry_flags, open_flags.
    destruct (Z.neg_nonneg_cases n) as [Hn|Hn].
    + by rewrite !Z.testbit_neg_r.
    + rewrite Z.land_spec, Z.lnot_spec, Hbit by done. simpl.
      apply andb_true_r.
Qed.


(** X12.  [close_remove()] throws exactly when its [close()] throws: what
    [::remove] returns is never an error.  After it returned the descriptor
    is -1, and calling it once more returns as well. *)
Theorem close_remove_returns (f : UfsFileBase) (w : World) :
  (close_remove os f w).1.1 = (close (sys_close os) f w).1.1 ∧
  ∀ f' w',
    close_remove os f w = (Returned, f', w') →
    file_des f' = -1 ∧
    ∀ v, (close_remove os f' v).1 = (Returned, f').
Proof.
  unfold close_remove. split.
  - destruct (close (sys_close os) f w) as [[[] f1] w1]; [|done].
    by destruct (m_is_device f1).
  - intros f' w' Hret.
    assert (file_des f' = -1) as Hfd.
    { destruct (close (sys_close os) f w) as [[[] f1] w1] eqn:Hclose; [|done].
      apply UfsFacts.close_returned in Hclose as (Hfd & _).
      destruct (m_is_device f1); by injection Hret as <- _. }
    split; [done|]. intros v.
    rewrite (UfsFacts.close_closed _ _ _ Hfd).
    by destruct (m_is_device f').
Qed.

(** X13.  A device node is left alone: for an object whose [m_is_device] is
    set, [unlink()] returns without a system call, and [set_size] and
    [close_remove] make neither [::ftruncate] nor [::remove] nor
    [::unlink] calls, that is, they do the same whatever these three system
    calls would do. *)
Theorem device_is_left_alone (os' : System World) (f : UfsFileBase)
  (newsize : Z) (w : World) :
  m_is_device f = true →
  sys_lseek os' = sys_lseek os → sys_close os' = sys_close os →
  unlink os f w = (Returned, w) ∧
  set_size K os' f newsize w = set_size K os f newsize w ∧
  close_remove os' f w = close_remove os f w.
Proof.
  intros Hdev Hseek Hclose. split; [unfold unlink; by rewrite Hdev|]. split.
  - unfold set_size, _set_size, _size. by rewrite Hseek, Hdev, andb_false_r.
  - unfold close_remove. rewrite Hclose.
    destruct (close (sys_close os) f w) as [[[] f1] w1] eqn:Hc; [|done].
    apply UfsFacts.close_returned in Hc as (_ & _ & Hd & _).
    by rewrite Hd, Hdev.
Qed.

(** X14.  [set_size] and [size()].  Let [fsize] be the size of the file
    behind the descriptor, in the sense that seeking to the end reports it,
    seeking does not change it and a successful [::ftruncate] to a
    non-negative length sets it.  When [set_size(newsize)] returns, for a
    [newsize] that an [off_t] holds (below 2^63), a following [size()]
    returns [newsize] if the file is neither opened [RDONLY] nor a device,
    and the size from before otherwise. *)
Theorem set_size_then_size (fsize : World → Z) (f : UfsFileBase)
  (newsize : Z) (w w' : World) :
  (∀ v, (sys_lseek os (file_des f) 0 (SEEK_END K) v).1 = fsize v ∧
        fsize (sys_lseek os (file_des f) 0 (SEEK_END K) v).2 = fsize v) →
  (∀ off v, fsize (sys_lseek os (file_des f) off (SEEK_SET K) v).2 = fsize v) →
  (∀ n v, 0 <= n → (sys_ftruncate os (file_des f) n v).1 = 0 →
          fsize (sys_ftruncate os (file_des f) n v).2 = n) →
  0 <= newsize < 2 ^ 63 →
  set_size K os f newsize w = (Returned, w') →
  ∃ w'', size K os f w' =
         (Ok (if negb (has (m_mode f) (RDONLY K)) && negb (m_is_device f)
              then newsize else fsize w), w'').
Proof.
  intros Hend Hset Htrunc Hnew.
  unfold set_size, _set_size, size, _size.
  rewrite (to_off_t_small newsize) by done.
  destruct (Hend w) as [Hcur Hkeep].
  destruct (decide ((sys_lseek os (file_des f) 0 (SEEK_END K) w).1 < 0))
    as [|Hcur0]; [done|].
  set (w1 := (sys_lseek os (file_des f) 0 (SEEK_END K) w).2) in *.
  set (writable := negb (has (m_mode f) (RDONLY K)) && negb (m_is_device f)).
  set (t := if writable then sys_ftruncate os (file_des f) newsize w1
            else (0, w1)).
  destruct (decide (t.1 ≠ 0)) as [|Ht]; [done|]. apply dec_stable in Ht.
  assert (fsize t.2 = if writable then newsize else fsize w) as Hsize.
  { subst t. destruct writable; simpl in *; [apply Htrunc; [lia|done]|done]. }
  assert (0 <= fsize t.2) as Hpos.
  { rewrite Hsize. destruct writable; lia. }
  assert (∀ v, fsize v = fsize t.2 →
            ∃ w'', (let r := sys_lseek os (file_des f) 0 (SEEK_END K) v in
                    if decide (r.1 < 0) then (Throw, r.2) else (Ok r.1, r.2)) =
                   (Ok (if writable then newsize else fsize w), w'')) as Hread.
  { intros v Hv. destruct (Hend v) as [Hr _]. simpl.
    rewrite decide_False by lia. rewrite Hr, Hv, Hsize. by eexists. }
  destruct (decide _) as [Hgrow|Hsame].
  - destruct (decide _) as [|Hok]; [done|]. intros [= <-].
    apply Hread. apply Hset.
  - intros [= <-]. by apply Hread.
Qed.

End Ufs.

Lemma open_flags_bits_witness :
  Z.land (open_flags sample_constants false 12) 64 = 64 ∧
  Z.land (open_flags sample_constants false 28) 16384 = 16384.
Proof.
  split.
  - apply (proj1 (proj2 (proj2 (proj2
             (open_flags_bits sample_constants false 12))))).
    reflexivity.
  - apply (proj1 (proj2 (proj2 (proj2 (proj2 (proj2
             (open_flags_bits sample_constants false 28))))))); reflexivity.
Defined.


Lemma close_remove_returns_witness :
  file_des (mkUfs (-1) 12 false "/tmp/f") = -1 ∧
  ∀ v, (close_remove one_file_os (mkUfs (-1) 12 false "/tmp/f") v).1 =
       (Returned, mkUfs (-1) 12 false "/tmp/f").
Proof.
  apply (proj2 (close_remove_returns one_file_os
                  (mkUfs 3 12 false "/tmp/f") 7)
           (mkUfs (-1) 12 false "/tmp/f") 7).
  reflexivity.
Defined.

Lemma device_is_left_alone_witness :
  unlink one_file_os (mkUfs 3 12 true "/dev/sdb") 7 = (Returned, 7) ∧
  set_size sample_constants read_only_os (mkUfs 3 12 true "/dev/sdb") 100 7 =
    set_size sample_constants one_file_os (mkUfs 3 12 true "/dev/sdb") 100 7 ∧
  close_remove read_only_os (mkUfs 3 12 true "/dev/sdb") 7 =
    close_remove one_file_os (mkUfs 3 12 true "/dev/sdb") 7.
Proof.
  apply (device_is_left_alone sample_constants one_file_os read_only_os
           (mkUfs 3 12 true "/dev/sdb") 100 7); reflexivity.
Defined.

Lemma set_size_then_size_witness :
  ∃ w'', size sample_constants one_file_os (mkUfs 3 12 false "/tmp/f") 100 =
         (Ok 100, w'').
Proof.
  apply (set_size_then_size sample_constants one_file_os (λ v, v)
           (mkUfs 3 12 false "/tmp/f") 100 7 100).
  - intros v. simpl. lia.
  - intros off v. reflexivity.
  - intros n v _ _. reflexivity.
  - lia.
  - reflexivity.
Defined.

(** Beyond the range of [off_t] the length handed to [::ftruncate] is
    negative: [set_size(2^64 - 1)] asks for the length -1. *)
Example set_size_beyond_off_t :
  to_off_t (2 ^ 64 - 1) = -1 ∧ to_off_t (2 ^ 64 - 2) = -2.
Proof. by vm_compute. Qed.

End UfsMoreFacts.

(** * The comparisons of prefix doubling *)

Module SuffixSortingFacts.
Import SuffixSorting.

Lemma mod_mask_ones w it : 0 <= it < w → mod_mask w it = Z.ones it.
Proof.
  intros Hit. unfold mod_mask, to_Index.
  rewrite Z.shiftl_1_l.
  assert (0 < 2 ^ it < 2 ^ w) as Hpow.
  { split; [apply Z.pow_pos_nonneg; lia|apply Z.pow_lt_mono_r; lia]. }
  rewrite (Z.mod_small (2 ^ it)) by lia.
  rewrite Z.mod_small by lia.
  rewrite Z.ones_equiv. lia.
Qed.

Lemma land_mod_mask w it a :
  0 <= it < w → Z.land a (mod_mask w it) = a mod 2 ^ it.
Proof. intros Hit. rewrite mod_mask_ones by done. apply Z.land_ones. lia. Qed.

Lemma land_div_mask w it a :
  0 <= it < w → 0 <= a < 2 ^ w →
  Z.land a (div_mask w it) = 2 ^ it * (a / 2 ^ it).
Proof.
  intros Hit Ha. unfold div_mask, to_Index.
  rewrite mod_mask_ones by done.
  rewrite <-(Z.land_ones (Z.lnot _)) by lia.
  rewrite (Z.land_comm (Z.lnot _)), Z.land_assoc.
  rewrite (Z.land_ones a) by lia. rewrite (Z.mod_small a) by lia.
  rewrite <-Z.ldiff_land.
  rewrite Z.ldiff_ones_r by lia.
  rewrite Z.shiftl_mul_pow2, Z.shiftr_div_pow2 by lia. lia.
Qed.

(** X15.  The index comparison of the [Sort] calls orders indices by their
    remainder modulo 2^iteration first and by their quotient second: it
    holds exactly when (a mod 2^iteration, a / 2^iteration) is
    lexicographically below the pair of b.  It is therefore a strict total
    order on indices: never both ways, and one way for distinct indices. *)
Theorem index_less_spec (index_bits iteration a b : Z) :
  0 <= iteration < index_bits →
  0 <= a < 2 ^ index_bits → 0 <= b < 2 ^ index_bits →
  (index_less index_bits iteration a b = true ↔
   a mod 2 ^ iteration < b mod 2 ^ iteration ∨
   (a mod 2 ^ iteration = b mod 2 ^ iteration ∧
    a / 2 ^ iteration < b / 2 ^ iteration)) ∧
  (index_less index_bits iteration a b = true →
   index_less index_bits iteration b a = false) ∧
  (a ≠ b →
   index_less index_bits iteration a b = true ∨
   index_less index_bits iteration b a = true).
Proof.
  intros Hit Ha Hb.
  assert (0 < 2 ^ iteration) as Hpow by (apply Z.pow_pos_nonneg; lia).
  assert (∀ x y, 0 <= x < 2 ^ index_bits → 0 <= y < 2 ^ index_bits →
            index_less index_bits iteration x y = true ↔
            x mod 2 ^ iteration < y mod 2 ^ iteration ∨
            (x mod 2 ^ iteration = y mod 2 ^ iteration ∧
             x / 2 ^ iteration < y / 2 ^ iteration)) as Hspec.
  { intros x y Hx Hy. unfold index_less.
    rewrite !land_mod_mask, !land_div_mask by done.
    destruct (Z.eqb_spec (x mod 2 ^ iteration) (y mod 2 ^ iteration)) as [He|Hne].
    - rewrite Z.ltb_lt. split; [intros; right; split; [done|nia]|].
      intros [|[_ ?]]; [lia|nia].
    - rewrite Z.ltb_lt. split; [by left|]. intros [|[? _]]; [done|lia]. }
  split; [by apply Hspec|]. split.
  - intros Hab. apply Hspec in Hab; [|done..].
    apply not_true_is_false. intros Hba. apply Hspec in Hba; [|done..]. lia.
  - intros Hne.
    rewrite !Hspec by done.
    pose proof (Z.div_mod a (2 ^ iteration)).
    pose proof (Z.div_mod b (2 ^ iteration)).
    destruct (Z.lt_trichotomy (a mod 2 ^ iteration) (b mod 2 ^ iteration))
      as [|[Heq|]]; [by left; left| |by right; left].
    destruct (Z.lt_trichotomy (a / 2 ^ iteration) (b / 2 ^ iteration))
      as [|[Heq'|]]; [left; right; lia| |right; right; lia].
    exfalso. apply Hne. rewrite H, H0 by lia. by rewrite Heq, Heq'.
Qed.

Lemma index_less_spec_witness :
  (index_less 32 2 5 6 = true ↔
   5 mod 2 ^ 2 < 6 mod 2 ^ 2 ∨
   (5 mod 2 ^ 2 = 6 mod 2 ^ 2 ∧ 5 / 2 ^ 2 < 6 / 2 ^ 2)) ∧
  (index_less 32 2 5 6 = true → index_less 32 2 6 5 = false) ∧
  (5 ≠ 6 → index_less 32 2 5 6 = true ∨ index_less 32 2 6 5 = true).
Proof. apply (index_less_spec 32 2 5 6); by vm_compute. Defined.

(** X16.  [IndexRankRank::operator <] orders the triples by rank1, then by
    rank2, then by descending index: among triples that [operator ==]
    (which looks at the ranks only) takes for equal, the one with the larger
    index is the smaller.  It is a strict total order on the triples:
    irreflexive, transitive, and for two triples either one is below the
    other or all three fields agree. *)
Theorem IndexRankRank_lt_strict_total (a b c : IndexRankRank) :
  (IndexRankRank_lt a b = true ↔
   irr_rank1 a < irr_rank1 b ∨
   (irr_rank1 a = irr_rank1 b ∧
    (irr_rank2 a < irr_rank2 b ∨
     (irr_rank2 a = irr_rank2 b ∧ irr_index b < irr_index a)))) ∧
  (IndexRankRank_eq a b = true →
   IndexRankRank_lt a b = (irr_index b <? irr_index a)) ∧
  IndexRankRank_lt a a = false ∧
  (IndexRankRank_lt a b = true → IndexRankRank_lt b c = true →
   IndexRankRank_lt a c = true) ∧
  (IndexRankRank_lt a b = true ∨ IndexRankRank_lt b a = true ∨ a = b) ∧
  (IndexRankRank_eq a b = true → irr_index a ≠ irr_index b →
   IndexRankRank_lt a b = negb (IndexRankRank_lt b a)).
Proof.
  destruct a as [ia a1 a2], b as [ib b1 b2], c as [ic c1 c2].
  unfold IndexRankRank_lt, IndexRankRank_eq. simpl.
  split.
  { rewrite !orb_true_iff, !andb_true_iff, !orb_true_iff, !andb_true_iff.
    rewrite !Z.ltb_lt, !Z.eqb_eq, Z.gtb_ltb, Z.ltb_lt. tauto. }
  split.
  { rewrite Z.gtb_ltb.
    destruct (Z.ltb_spec a1 b1), (Z.eqb_spec a1 b1), (Z.ltb_spec a2 b2),
      (Z.eqb_spec a2 b2); simpl; try lia; done. }
  repeat split.
  - destruct (Z.ltb_spec a1 a1), (Z.eqb_spec a1 a1), (Z.ltb_spec a2 a2),
      (Z.eqb_spec a2 a2), (Z.gtb_spec ia ia); simpl; lia || done.
  - destruct (Z.ltb_spec a1 b1), (Z.eqb_spec a1 b1), (Z.ltb_spec a2 b2),
      (Z.eqb_spec a2 b2), (Z.gtb_spec ia ib),
      (Z.ltb_spec b1 c1), (Z.eqb_spec b1 c1), (Z.ltb_spec b2 c2),
      (Z.eqb_spec b2 c2), (Z.gtb_spec ib ic),
      (Z.ltb_spec a1 c1), (Z.eqb_spec a1 c1), (Z.ltb_spec a2 c2),
      (Z.eqb_spec a2 c2), (Z.gtb_spec ia ic); simpl; lia || done.
  - destruct (Z.ltb_spec a1 b1), (Z.eqb_spec a1 b1), (Z.ltb_spec a2 b2),
      (Z.eqb_spec a2 b2), (Z.gtb_spec ia ib),
      (Z.ltb_spec b1 a1), (Z.eqb_spec b1 a1), (Z.ltb_spec b2 a2),
      (Z.eqb_spec b2 a2), (Z.gtb_spec ib ia); simpl;
      try lia; try (by left); try (by right; left).
    right. right. f_equal; lia.
  - destruct (Z.ltb_spec a1 b1), (Z.eqb_spec a1 b1), (Z.ltb_spec a2 b2),
      (Z.eqb_spec a2 b2), (Z.gtb_spec ia ib),
      (Z.ltb_spec b1 a1), (Z.eqb_spec b1 a1), (Z.ltb_spec b2 a2),
      (Z.eqb_spec b2 a2), (Z.gtb_spec ib ia); simpl; try lia; done.
Qed.

Lemma IndexRankRank_lt_strict_total_witness :
  IndexRankRank_lt (mkIndexRankRank 4 1 1) (mkIndexRankRank 9 1 1) =
    (9 <? 4) ∧
  IndexRankRank_lt (mkIndexRankRank 9 1 1) (mkIndexRankRank 4 1 1) =
    (4 <? 9).
Proof.
  split.
  - apply (proj1 (proj2
             (IndexRankRank_lt_strict_total (mkIndexRankRank 4 1 1)
                (mkIndexRankRank 9 1 1) (mkIndexRankRank 9 1 1)))).
    reflexivity.
  - apply (proj1 (proj2
             (IndexRankRank_lt_strict_total (mkIndexRankRank 9 1 1)
                (mkIndexRankRank 4 1 1) (mkIndexRankRank 9 1 1)))).
    reflexivity.
Defined.

(** The larger index is the smaller triple. *)
Example IndexRankRank_descending_index :
  IndexRankRank_lt (mkIndexRankRank 4 1 1) (mkIndexRankRank 9 1 1) = false ∧
  IndexRankRank_lt (mkIndexRankRank 9 1 1) (mkIndexRankRank 4 1 1) = true.
Proof. by vm_compute. Qed.

(** X17.  The three functions given to [PrefixSum] are associative, as a
    prefix sum needs: the maximum of ranks, the sum of ranks in [Index]
    arithmetic, and the pair of maxima of [Index3Rank]. *)
Theorem prefix_sum_functions_associative (index_bits : Z)
  (a b c : IndexRank) (x y z : Index3Rank) :
  max_rank (max_rank a b) c = max_rank a (max_rank b c) ∧
  sum_rank index_bits (sum_rank index_bits a b) c =
    sum_rank index_bits a (sum_rank index_bits b c) ∧
  max_rank3 (max_rank3 x y) z = max_rank3 x (max_rank3 y z).
Proof.
  unfold max_rank, sum_rank, max_rank3, to_Index. simpl. repeat split.
  - f_equal. lia.
  - f_equal. rewrite Zplus_mod_idemp_l, Zplus_mod_idemp_r. f_equal. lia.
  - f_equal; lia.
Qed.

(** ** Packing characters into k-mers *)

Section KMer.
Context (char_bits : Z) (Hbits : 0 < char_bits).

Lemma lor_shifted a c :
  0 <= a → in_range char_bits c →
  Z.lor (Z.shiftl a char_bits) c = a * 2 ^ char_bits + c.
Proof.
  intros Ha Hc.
  assert (Z.land (Z.shiftl a char_bits) c = 0) as Hdisjoint.
  { apply Z.bits_inj'. intros n Hn. rewrite Z.land_spec, Z.bits_0.
    destruct (Z.lt_ge_cases n char_bits) as [Hlow|Hhigh].
    - by rewrite Z.shiftl_spec_low.
    - rewrite <-(Z.mod_small c (2 ^ char_bits)) by done.
      rewrite <-Z.land_ones, Z.land_spec, Z.ones_spec_high by lia.
      by rewrite !andb_false_r. }
  rewrite <-Z.lxor_lor, <-Z.add_nocarry_lxor by done.
  by rewrite Z.shiftl_mul_pow2 by lia.
Qed.

Lemma digits_value_bound chars :
  Forall (in_range char_bits) chars →
  0 <= digits_value char_bits chars
    < 2 ^ (char_bits * Z.of_nat (length chars)).
Proof.
  induction 1 as [|c chars Hc _ IH]; [simpl; lia|].
  cbn [digits_value length]. rewrite Nat2Z.inj_succ.
  replace (char_bits * Z.succ (Z.of_nat (length chars)))
    with (char_bits + char_bits * Z.of_nat (length chars)) by lia.
  rewrite Z.pow_add_r by lia. unfold in_range in Hc. nia.
Qed.

Lemma digits_value_app u v :
  digits_value char_bits (u ++ v) =
  digits_value char_bits u * 2 ^ (char_bits * Z.of_nat (length v))
  + digits_value char_bits v.
Proof.
  induction u as [|c u IH]; [simpl; lia|].
  cbn [digits_value app]. rewrite IH, length_app, Nat2Z.inj_add.
  rewrite Z.mul_add_distr_l, Z.pow_add_r by lia. lia.
Qed.

Lemma digits_value_zeros n : digits_value char_bits (replicate n 0) = 0.
Proof. induction n as [|n IH]; simpl; [done|]. by rewrite IH. Qed.

Lemma pack_step_value chars : ∀ acc done,
  Forall (in_range char_bits) chars →
  0 <= acc < 2 ^ (char_bits * Z.of_nat done) →
  char_bits * Z.of_nat (done + length chars) <= 64 →
  foldl (λ result c, Z.lor (shl64 result char_bits) c) acc chars =
  acc * 2 ^ (char_bits * Z.of_nat (length chars))
  + digits_value char_bits chars.
Proof.
  induction chars as [|c chars IH]; intros acc done Hall Hacc Hfit.
  - simpl. rewrite Z.mul_0_r. simpl. lia.
  - apply Forall_cons in Hall as [Hc Hall].
    cbn [foldl digits_value length] in *.
    assert (shl64 acc char_bits = acc * 2 ^ char_bits) as Hshift.
    { unfold shl64. rewrite Z.shiftl_mul_pow2 by lia.
      apply Z.mod_small. split; [nia|].
      apply Z.lt_le_trans with (2 ^ (char_bits * Z.of_nat done + char_bits)).
      - rewrite Z.pow_add_r by lia. nia.
      - apply Z.pow_le_mono_r; lia. }
    rewrite Hshift, <-(Z.shiftl_mul_pow2 acc) by lia.
    rewrite lor_shifted by (done || lia).
    rewrite (IH _ (S done)); [| done | | lia].
    + rewrite Nat2Z.inj_succ.
      replace (char_bits * Z.succ (Z.of_nat (length chars)))
        with (char_bits + char_bits * Z.of_nat (length chars)) by lia.
      rewrite Z.pow_add_r by lia. lia.
    + rewrite Nat2Z.inj_succ.
      replace (char_bits * Z.succ (Z.of_nat done))
        with (char_bits * Z.of_nat done + char_bits) by lia.
      rewrite Z.pow_add_r by lia. unfold in_range in Hc. nia.
Qed.

Lemma lookups_drop (rb : list Z) i :
  (λ j, rb !!! j) <$> seq i (length rb - i) = drop i rb.
Proof.
  revert i. induction rb as [|c rb IH]; intros i; [by rewrite drop_nil|].
  destruct i as [|i]; simpl.
  - f_equal. specialize (IH O). rewrite Nat.sub_0_r, drop_0 in IH.
    rewrite <-IH at 2. rewrite <-fmap_S_seq, <-list_fmap_compose. done.
  - rewrite <-IH. rewrite <-fmap_S_seq, <-list_fmap_compose. done.
Qed.

Lemma pack_from_value (rb : list Z) i :
  Forall (in_range char_bits) rb → (i < length rb)%nat →
  char_bits * Z.of_nat (length rb - i) <= 64 →
  pack_from char_bits (length rb) rb i = digits_value char_bits (drop i rb).
Proof.
  intros Hall Hi Hfit. unfold pack_from.
  destruct (lookup_lt_is_Some_2 rb i Hi) as [c Hc].
  rewrite (drop_S rb c i Hc). rewrite (list_lookup_total_correct rb i c Hc).
  rewrite <-(foldl_fmap (λ result c', Z.lor (shl64 result char_bits) c')
               _ _ (λ j, rb !!! j)).
  rewrite lookups_drop.
  assert (in_range char_bits c) as Hcr.
  { rewrite Forall_forall in Hall. apply Hall.
    by apply list_elem_of_lookup_2 in Hc. }
  rewrite (pack_step_value _ _ 1%nat).
  - done.
  - by apply Forall_drop.
  - unfold in_range in Hcr. by rewrite Z.mul_1_r.
  - rewrite length_drop.
    by replace (1 + (length rb - S i))%nat with (length rb - i)%nat by lia.
Qed.

Lemma lex_less_value u : ∀ v,
  length u = length v → Forall (in_range char_bits) u → Forall (in_range char_bits) v →
  (lex_less u v = true ↔ digits_value char_bits u < digits_value char_bits v) ∧
  (digits_value char_bits u = digits_value char_bits v ↔ u = v).
Proof.
  induction u as [|c u IH]; intros [|d v] Hlen Hu Hv; try done.
  apply Forall_cons in Hu as [Hc Hu]. apply Forall_cons in Hv as [Hd Hv].
  injection Hlen as Hlen.
  destruct (IH v Hlen Hu Hv) as [IHlt IHeq].
  pose proof (digits_value_bound u Hu) as Bu.
  pose proof (digits_value_bound v Hv) as Bv.
  cbn [lex_less digits_value]. rewrite Hlen in *.
  set (P := 2 ^ (char_bits * Z.of_nat (length v))) in *.
  set (x := digits_value char_bits u) in *.
  set (y := digits_value char_bits v) in *.
  split.
  - rewrite orb_true_iff, andb_true_iff, Z.ltb_lt, Z.eqb_eq, IHlt. nia.
  - split.
    + intros Heq. assert (c = d) as -> by nia.
      f_equal. apply IHeq. lia.
    + intros [= -> Huv]. apply IHeq in Huv. lia.
Qed.

Lemma shl64_digits chars i :
  Forall (in_range char_bits) chars →
  char_bits * Z.of_nat (length chars + i) <= 64 →
  shl64 (digits_value char_bits chars) (Z.of_nat i * char_bits) =
  digits_value char_bits (chars ++ replicate i 0).
Proof.
  intros Hall Hfit. pose proof (digits_value_bound chars Hall) as Hb.
  rewrite digits_value_app, digits_value_zeros, length_replicate, Z.add_0_r.
  unfold shl64. rewrite Z.shiftl_mul_pow2 by lia.
  rewrite (Z.mul_comm (Z.of_nat i)). apply Z.mod_small. split; [nia|].
  apply Z.lt_le_trans
    with (2 ^ (char_bits * Z.of_nat (length chars) + char_bits * Z.of_nat i)).
  - rewrite Z.pow_add_r by lia.
    assert (0 < 2 ^ (char_bits * Z.of_nat i)) by (apply Z.pow_pos_nonneg; lia).
    nia.
  - apply Z.pow_le_mono_r; lia.
Qed.

End KMer.

Lemma to_Index_small w x : 0 <= x < 2 ^ w → to_Index w x = x.
Proof. apply Z.mod_small. Qed.

(** X18.  The k-mer of a window is the number whose digits to the base
    2^char_bits are the characters of the window, first character most
    significant, provided the [k_fitting] characters fit into an [Index] of
    at most 64 bits.  So [IndexKMer::operator <] compares two windows
    lexicographically, and [operator ==] holds for equal windows only. *)
Theorem k_mer_order (char_bits index_bits : Z) (rb rb' : list Z)
  (input_size index input_size' index' : Z) :
  0 < char_bits → rb ≠ [] → length rb' = length rb →
  char_bits * Z.of_nat (length rb) <= index_bits → index_bits <= 64 →
  Forall (in_range char_bits) rb → Forall (in_range char_bits) rb' →
  ∃ a rest b rest',
    k_mers char_bits index_bits (length rb) input_size index rb = a :: rest ∧
    k_mers char_bits index_bits (length rb) input_size' index' rb' = b :: rest' ∧
    km_index a = to_Index index_bits index ∧
    km_chars a = digits_value char_bits rb ∧
    IndexKMer_lt a b = lex_less rb rb' ∧
    (IndexKMer_eq a b = true ↔ rb = rb').
Proof.
  intros Hbits Hne Hlen Hfit H64 Hrb Hrb'.
  assert (0 < length rb)%nat as Hk by (destruct rb; [done|simpl; lia]).
  assert (∀ l, length l = length rb → Forall (in_range char_bits) l →
            to_Index index_bits (pack_from char_bits (length rb) l 0)
            = digits_value char_bits l) as Hpack.
  { intros l Hl Hall. rewrite <-Hl.
    rewrite pack_from_value, drop_0 by (done || rewrite ?Nat.sub_0_r; lia).
    apply to_Index_small.
    pose proof (digits_value_bound char_bits Hbits l Hall) as Hb.
    split; [lia|]. eapply Z.lt_le_trans; [apply Hb|].
    apply Z.pow_le_mono_r; lia. }
  eexists _, _, _, _. split; [reflexivity|]. split; [reflexivity|].
  unfold IndexKMer_lt, IndexKMer_eq. simpl.
  rewrite !Hpack by done.
  destruct (lex_less_value char_bits Hbits rb rb') as [Hlt Heq]; [done..|].
  split; [done|]. split; [done|]. split.
  - apply eq_iff_eq_true. by rewrite Hlt, Z.ltb_lt.
  - by rewrite Z.eqb_eq.
Qed.

Lemma k_mer_order_witness :
  ∃ a rest b rest',
    k_mers 8 32 (length [97; 98; 99; 100]) 10 3 [97; 98; 99; 100] = a :: rest ∧
    k_mers 8 32 (length [97; 98; 99; 100]) 10 6 [97; 98; 100; 0] = b :: rest' ∧
    km_index a = to_Index 32 3 ∧
    km_chars a = digits_value 8 [97; 98; 99; 100] ∧
    IndexKMer_lt a b = lex_less [97; 98; 99; 100] [97; 98; 100; 0] ∧
    (IndexKMer_eq a b = true ↔ [97; 98; 99; 100] = [97; 98; 100; 0]).
Proof.
  apply (k_mer_order 8 32 [97; 98; 99; 100] [97; 98; 100; 0] 10 3 10 6);
    try done; try (by vm_compute).
  - repeat constructor; by vm_compute.
  - repeat constructor; by vm_compute.
Defined.

(** X19.  At the last window ([index == input_size - k_fitting]) the
    function emits one k-mer for each of the [k_fitting] suffixes that start
    in the window: the one starting at position [i] of the window gets the
    index [index + i] and the digits of the rest of the window followed by
    [i] zero characters.  At any other window it emits the k-mer of the
    window alone. *)
Theorem k_mers_last_window (char_bits index_bits : Z) (rb : list Z)
  (input_size index : Z) :
  0 < char_bits → rb ≠ [] →
  char_bits * Z.of_nat (length rb) <= index_bits → index_bits <= 64 →
  Forall (in_range char_bits) rb → is_size_t index →
  k_mers char_bits index_bits (length rb) input_size index rb =
  if index =? (input_size - Z.of_nat (length rb)) mod SIZE_MODULUS
  then (λ i, mkIndexKMer
               (to_Index index_bits (size_t_add index (Z.of_nat i)))
               (digits_value char_bits (drop i rb ++ replicate i 0)))
       <$> seq 0 (length rb)
  else [mkIndexKMer (to_Index index_bits index) (digits_value char_bits rb)].
Proof.
  intros Hbits Hne Hfit H64 Hrb Hindex.
  assert (∀ i, (i < length rb)%nat →
            to_Index index_bits
              (shl64 (pack_from char_bits (length rb) rb i)
                 (Z.of_nat i * char_bits))
            = digits_value char_bits (drop i rb ++ replicate i 0)) as Htail.
  { intros i Hi. rewrite pack_from_value by (done || lia).
    assert (length (drop i rb) + i = length rb)%nat as Hl
      by (rewrite length_drop; lia).
    rewrite shl64_digits; [|done|by apply Forall_drop|rewrite Hl; lia].
    apply to_Index_small.
    assert (Forall (in_range char_bits) (drop i rb ++ replicate i 0)) as Hall.
    { apply Forall_app. split; [by apply Forall_drop|].
      apply Forall_replicate. split; [done|]. apply Z.pow_pos_nonneg; lia. }
    pose proof (digits_value_bound char_bits Hbits _ Hall) as Hb.
    rewrite length_app, length_replicate, Hl in Hb.
    split; [lia|]. eapply Z.lt_le_trans; [apply Hb|].
    apply Z.pow_le_mono_r; lia. }
  assert (0 < length rb)%nat as Hk by (destruct rb; [done|simpl; lia]).
  assert (to_Index index_bits (pack_from char_bits (length rb) rb 0)
          = digits_value char_bits rb) as Hhead.
  { specialize (Htail O Hk). simpl in Htail.
    rewrite drop_0, app_nil_r in Htail. rewrite <-Htail. f_equal.
    unfold shl64. rewrite Z.shiftl_0_r. symmetry. apply Z.mod_small.
    rewrite pack_from_value, drop_0 by (done || rewrite ?Nat.sub_0_r; lia).
    pose proof (digits_value_bound char_bits Hbits rb Hrb) as Hb.
    split; [lia|]. eapply Z.lt_le_trans; [apply Hb|].
    apply Z.pow_le_mono_r; lia. }
  unfold k_mers. rewrite Hhead.
  destruct (index =? _); [|done].
  destruct (length rb) as [|k] eqn:Hlen; [lia|].
  cbn [seq fmap list_fmap]. f_equal.
  - f_equal; [|by rewrite drop_0, app_nil_r].
    f_equal. unfold size_t_add. rewrite Z.add_0_r.
    symmetry. by apply Z.mod_small.
  - rewrite Nat.sub_succ, Nat.sub_0_r. apply list_fmap_ext.
    intros j i Hj. apply lookup_seq in Hj as [-> Hj]. f_equal.
    apply Htail. lia.
Qed.

Lemma k_mers_last_window_witness :
  k_mers 8 32 (length [97; 98; 99; 100]) 10 6 [97; 98; 99; 100] =
  if 6 =? (10 - Z.of_nat (length [97; 98; 99; 100])) mod SIZE_MODULUS
  then (λ i, mkIndexKMer (to_Index 32 (size_t_add 6 (Z.of_nat i)))
               (digits_value 8 (drop i [97; 98; 99; 100] ++ replicate i 0)))
       <$> seq 0 (length [97; 98; 99; 100])
  else [mkIndexKMer (to_Index 32 6) (digits_value 8 [97; 98; 99; 100])].
Proof.
  apply (k_mers_last_window 8 32 [97; 98; 99; 100] 10 6);
    try done; try (by vm_compute).
  repeat constructor; by vm_compute.
Defined.

End SuffixSortingFacts.

(** * The mock group *)

Module MockFacts.
Import Net.

Lemma dims_connect n group i j s : dims n group → dims n (connect group i j s).
Proof.
  intros [Hlen Hall]. unfold connect. split; [by rewrite length_alter|].
  apply Forall_alter; [done|]. intros g Hg Hl. simpl.
  by rewrite length_insert.
Qed.

Lemma connection_connect n group i j s a b :
  dims n group → (i < n)%nat → (j < n)%nat →
  connection (connect group i j s) a b =
  if decide (a = i ∧ b = j) then Some s else connection group a b.
Proof.
  intros [Hlen Hall] Hi Hj. unfold connection, connect.
  destruct (decide (a = i ∧ b = j)) as [[-> ->]|Hne].
  - rewrite list_lookup_alter_eq.
    destruct (lookup_lt_is_Some_2 group i) as [g Hg]; [lia|].
    assert (length (connections_ g) = n) as Hg'.
    { rewrite Forall_forall in Hall. apply Hall.
      by apply list_elem_of_lookup_2 in Hg. }
    rewrite Hg.
    cbn [fmap option_fmap option_map mbind option_bind connections_].
    by rewrite list_lookup_insert_eq by lia.
  - destruct (decide (a = i)) as [->|Ha].
    + rewrite list_lookup_alter_eq. destruct (group !! i) as [g|]; [|done].
      cbn [fmap option_fmap option_map mbind option_bind connections_].
      by rewrite list_lookup_insert_ne by (intros ->; tauto).
    + by rewrite list_lookup_alter_ne.
Qed.

Lemma wire_pairs_expected n ps : ∀ group c a b,
  dims n group →
  Forall (λ p, p.1 < n ∧ p.2 < n)%nat ps →
  dims n (foldl (λ st p, wire_pair p.1 p.2 st) (group, c) ps).1 ∧
  (foldl (λ st p, wire_pair p.1 p.2 st) (group, c) ps).2
    = (c + length ps)%nat ∧
  connection (foldl (λ st p, wire_pair p.1 p.2 st) (group, c) ps).1 a b
    = expected ps c (connection group a b) a b.
Proof.
  induction ps as [|[i j] ps IH]; intros group c a b Hdims Hall.
  - split; [done|]. split; [simpl; lia|done].
  - apply Forall_cons in Hall as [[Hi Hj] Hall]. simpl in Hi, Hj.
    pose proof (dims_connect n group i j (mkSocket c false) Hdims) as Hd1.
    pose proof (dims_connect n _ j i (mkSocket c true) Hd1) as Hd2.
    destruct (IH _ (S c) a b Hd2 Hall) as (Hd & Hc & Hconn).
    change (foldl (λ st p, wire_pair p.1 p.2 st) (group, c) ((i, j) :: ps))
      with (foldl (λ st p, wire_pair p.1 p.2 st)
              (connect (connect group i j (mkSocket c false)) j i
                 (mkSocket c true), S c) ps).
    split; [done|]. split; [rewrite Hc; simpl; lia|]. rewrite Hconn.
    cbn [expected fst snd]. f_equal.
    rewrite (connection_connect n) by done.
    by rewrite (connection_connect n) by done.
Qed.

Lemma expected_untouched ps : ∀ c d a b,
  (a, b) ∉ ps → (b, a) ∉ ps → expected ps c d a b = d.
Proof.
  induction ps as [|[i j] ps IH]; intros c d a b Hab Hba; [done|].
  apply not_elem_of_cons in Hab as [Hab Hab'].
  apply not_elem_of_cons in Hba as [Hba Hba']. simpl.
  rewrite decide_False by (intros [-> ->]; done).
  rewrite decide_False by (intros [-> ->]; done).
  by apply IH.
Qed.

Lemma expected_visited ps : ∀ c d k i j,
  NoDup ps → (∀ p, p ∈ ps → p.1 < p.2)%nat →
  ps !! k = Some (i, j) →
  expected ps c d i j = Some (mkSocket (c + k) false) ∧
  expected ps c d j i = Some (mkSocket (c + k) true).
Proof.
  induction ps as [|[i0 j0] ps IH]; intros c d k i j Hnd Hlt Hk; [done|].
  apply NoDup_cons in Hnd as [Hfresh Hnd].
  assert (∀ p, p ∈ ps → (p.1 < p.2)%nat) as Hlt'
    by (intros p Hp; apply Hlt; by right).
  destruct k as [|k]; simpl in Hk.
  - injection Hk as -> ->.
    assert (i < j)%nat as Hij by (apply (Hlt (i, j)); by left).
    assert ((j, i) ∉ ps) as Hji.
    { intros Hin. apply Hlt' in Hin. simpl in Hin. lia. }
    simpl. rewrite Nat.add_0_r.
    rewrite (decide_False (P := i = j ∧ j = i)) by lia.
    rewrite (decide_True (P := i = i ∧ j = j)) by done.
    rewrite (decide_True (P := j = j ∧ i = i)) by done.
    by rewrite !expected_untouched.
  - destruct (IH (S c) d k i j Hnd Hlt' Hk) as [H1 H2].
    assert ((i, j) ∈ ps) as Hin by (by apply list_elem_of_lookup_2 in Hk).
    assert (i < j)%nat as Hij by (by apply Hlt' in Hin).
    assert ((i, j) ≠ (i0, j0)) as Hne by (intros [= -> ->]; done).
    assert (i0 < j0)%nat as Hij0 by (apply (Hlt (i0, j0)); by left).
    simpl. replace (c + S k)%nat with (S c + k)%nat by lia.
    split.
    + rewrite <-H1. clear H1 H2.
      destruct (decide (i = j0 ∧ j = i0)) as [[-> ->]|_]; [lia|].
      destruct (decide (i = i0 ∧ j = j0)) as [[-> ->]|_]; [done|].
      done.
    + rewrite <-H2. clear H1 H2.
      destruct (decide (j = j0 ∧ i = i0)) as [[-> ->]|_]; [done|].
      destruct (decide (j = i0 ∧ i = j0)) as [[-> ->]|_]; [lia|].
      done.
Qed.

Lemma ranks_connect group i j s :
  my_rank_ <$> connect group i j s = my_rank_ <$> group.
Proof.
  unfold connect. apply list_eq. intros k. rewrite !list_lookup_fmap.
  destruct (decide (k = i)) as [->|Hne].
  - rewrite list_lookup_alter_eq. by destruct (group !! i).
  - by rewrite list_lookup_alter_ne.
Qed.

Lemma ranks_wire_pairs ps : ∀ st,
  my_rank_ <$> (foldl (λ st p, wire_pair p.1 p.2 st) st ps).1
  = my_rank_ <$> st.1.
Proof.
  induction ps as [|p ps IH]; intros st; [done|].
  cbn [foldl]. rewrite IH. unfold wire_pair. cbn [fst].
  by rewrite !ranks_connect.
Qed.

Lemma wire_all_visited n st :
  wire_all n st = foldl (λ st p, wire_pair p.1 p.2 st) st (visited n).
Proof.
  unfold wire_all, visited. generalize (seq 0 n) as rows. intros rows.
  revert st. induction rows as [|i rows IH]; intros st; [done|].
  cbn [foldl]. rewrite bind_cons, foldl_app, <-IH. f_equal.
  unfold wire_row. by rewrite foldl_fmap.
Qed.

Lemma elem_of_visited n i j : (i, j) ∈ visited n ↔ (i < j ∧ j < n)%nat.
Proof.
  unfold visited. rewrite list_elem_of_bind. split.
  - intros (i' & Hin & Hi'). apply list_elem_of_fmap in Hin as (j' & [= -> ->] & Hj).
    apply elem_of_seq in Hj. apply elem_of_seq in Hi'. lia.
  - intros [Hij Hj]. exists i. split.
    + apply list_elem_of_fmap. exists j. split; [done|]. apply elem_of_seq. lia.
    + apply elem_of_seq. lia.
Qed.

Lemma NoDup_visited n : NoDup (visited n).
Proof.
  unfold visited. apply NoDup_bind.
  - intros i i' [a b] _ _ Hin Hin'.
    apply list_elem_of_fmap in Hin as (? & [= -> ->] & _).
    by apply list_elem_of_fmap in Hin' as (? & [= -> ->] & _).
  - intros i _. apply NoDup_fmap_2; [by intros ?? [= ->]|apply NoDup_seq].
  - apply NoDup_seq.
Qed.

Lemma length_rows n k : ∀ a,
  (a + k = n)%nat →
  (2 * length (i ← seq a k; pair i <$> seq (S i) (n - S i)) = k * (k - 1))%nat.
Proof.
  induction k as [|k IH]; intros a Hn; [done|].
  cbn [seq]. rewrite bind_cons, length_app, length_fmap, length_seq.
  specialize (IH (S a) ltac:(lia)).
  replace (n - S a)%nat with k by lia.
  simpl. rewrite Nat.sub_0_r. destruct k; simpl in *; lia.
Qed.

Lemma length_visited n : (2 * length (visited n) = n * (n - 1))%nat.
Proof. by apply (length_rows n n O). Qed.

(** X20.  The mock group is a full mesh.  [ExecuteLocalMock(n, ...)] builds
    [n] groups, group [i] with rank [i] and [n] connection slots, and creates
    n(n-1)/2 socket pairs, one for each pair of ranks i < j: its first end
    is [connections_[j]] of group [i], its second end [connections_[i]] of
    group [j], and no other slot holds an end of it.  The slot of a group
    for its own rank stays without a socket. *)
Theorem mock_is_full_mesh (n : nat) :
  length (mock_groups n).1 = n ∧
  (2 * (mock_groups n).2 = n * (n - 1))%nat ∧
  (∀ i, (i < n)%nat →
     ∃ g, (mock_groups n).1 !! i = Some g ∧ my_rank_ g = i ∧
          length (connections_ g) = n ∧
          connection (mock_groups n).1 i i = None) ∧
  (∀ i j, (i < j)%nat → (j < n)%nat →
     ∃ p, (p < (mock_groups n).2)%nat ∧ visited n !! p = Some (i, j) ∧
          connection (mock_groups n).1 i j = Some (mkSocket p false) ∧
          connection (mock_groups n).1 j i = Some (mkSocket p true)).
Proof.
  unfold mock_groups. rewrite wire_all_visited.
  set (start := (λ i, NetGroup_new i n) <$> seq 0 n).
  assert (dims n start) as Hstart.
  { unfold start. split; [by rewrite length_fmap, length_seq|].
    apply Forall_fmap, Forall_forall. intros i _. simpl.
    apply length_replicate. }
  assert (∀ a b, connection start a b = None) as Hnone.
  { intros a b. unfold connection, start. rewrite list_lookup_fmap.
    destruct (seq 0 n !! a) as [i|]; [|done]. simpl.
    destruct (replicate n None !! b) as [c|] eqn:Hc; [|done].
    by apply lookup_replicate in Hc as [-> _]. }
  assert (Forall (λ p, p.1 < n ∧ p.2 < n)%nat (visited n)) as Hbounds.
  { apply Forall_forall. intros [i j] Hin. apply elem_of_visited in Hin.
    simpl. lia. }
  assert (∀ p, p ∈ visited n → (p.1 < p.2)%nat) as Hordered.
  { intros [i j] Hin. apply elem_of_visited in Hin. simpl. lia. }
  pose proof (λ a b, wire_pairs_expected n (visited n) start O a b
                       Hstart Hbounds) as Hrun.
  destruct (Hrun O O) as ([Hlen Hall] & Hcount & _).
  split; [done|]. split; [rewrite Hcount; apply length_visited|]. split.
  - intros i Hi.
    destruct (lookup_lt_is_Some_2
                (foldl (λ st p, wire_pair p.1 p.2 st) (start, O) (visited n)).1 i)
      as [g Hg]; [lia|].
    exists g. split; [done|]. split.
    + pose proof (ranks_wire_pairs (visited n) (start, O)) as Hranks.
      apply (f_equal (λ l, l !! i)) in Hranks.
      rewrite !list_lookup_fmap, Hg in Hranks. simpl in Hranks.
      unfold start in Hranks. rewrite list_lookup_fmap in Hranks.
      rewrite lookup_seq_lt in Hranks by done. simpl in Hranks. congruence.
    + split.
      * rewrite Forall_forall in Hall. apply Hall.
        by apply list_elem_of_lookup_2 in Hg.
      * destruct (Hrun i i) as (_ & _ & ->). rewrite Hnone.
        apply expected_untouched; rewrite elem_of_visited; lia.
  - intros i j Hij Hj.
    assert ((i, j) ∈ visited n) as Hin by (apply elem_of_visited; lia).
    apply list_elem_of_lookup_1 in Hin as [p Hp].
    exists p. split.
    { rewrite Hcount. apply lookup_lt_Some in Hp. lia. }
    split; [done|].
    destruct (Hrun i j) as (_ & _ & ->). destruct (Hrun j i) as (_ & _ & ->).
    rewrite !Hnone.
    apply (expected_visited (visited n) O None p i j);
      [apply NoDup_visited|done|done].
Qed.

Lemma mock_is_full_mesh_witness :
  ∃ p, (p < (mock_groups 3).2)%nat ∧ visited 3 !! p = Some (0%nat, 2%nat) ∧
       connection (mock_groups 3).1 0 2 = Some (mkSocket p false) ∧
       connection (mock_groups 3).1 2 0 = Some (mkSocket p true).
Proof.
  apply (proj2 (proj2 (proj2 (mock_is_full_mesh 3))) 0%nat 2%nat); lia.
Defined.

Example mock_groups_3 :
  mock_groups 3 =
  ([mkNetGroup 0 [None; Some (mkSocket 0 false); Some (mkSocket 1 false)];
    mkNetGroup 1 [Some (mkSocket 0 true); None; Some (mkSocket 2 false)];
    mkNetGroup 2 [Some (mkSocket 1 true); Some (mkSocket 2 true); None]],
   3%nat).
Proof. reflexivity. Qed.

End MockFacts.
